(** * tadb-mcq: the quiz runner of [script.js]

    A shallow embedding of [script.js]: the module-level variables
    ([currentQuestions], [currentQuestionIndex], [score],
    [answeredQuestions]), the part of the page the script reads and writes,
    and the handlers the script installs.  JavaScript numbers that the script
    uses as integers are [Z]; arrays live in a store of mutable arrays,
    because [shuffleArray] works in place and [startQuiz] relies on a copy;
    the [Map] is a [gmap]. *)

From Stdlib Require Import Ascii String.
From stdpp Require Import base numbers list strings pretty gmap fin_maps.

Local Open Scope Z_scope.

(** ** Math.random and the product

    [Math.random()] gives a double [r] with [0 <= r < 1].  Such a double is
    [mant / 2^scale] with [0 <= mant < 2^53], [1 <= scale <= 1074] and
    [mant < 2^scale], and every such quotient is one. *)

Definition draw_wf (mant scale : Z) : bool :=
  (0 <=? mant) && (mant <? 2 ^ 53) && (1 <=? scale) && (scale <=? 1074)
  && (mant <? 2 ^ scale).

Record Draw := mkDraw {
  draw_mant : Z;
  draw_scale : Z;
  draw_ok : draw_wf draw_mant draw_scale = true
}.

Definition RandomSource := nat → Draw.

(** One call of [Math.random()]: the next draw and the rest of the source. *)
Definition Math_random (rng : RandomSource) : Draw * RandomSource :=
  (rng 0%nat, λ k, rng (S k)).

(** [p / 2^s] rounded to the nearest integer, a tie going to the even
    one. *)
Definition round_shift (p s : Z) : Z :=
  let q := p / 2 ^ s in
  let rest := p mod 2 ^ s in
  if 2 * rest <? 2 ^ s then q
  else if 2 ^ s <? 2 * rest then q + 1
  else if Z.even q then q else q + 1.

(** The double [r * n] for a draw [r] and an integer [n] that is itself a
    double (an array length is), as a numerator over [2^scale]: the exact
    product [mant * n] keeps its 53 leading bits, rounded to nearest, ties
    to even.  The product is never subnormal when bits are dropped. *)
Definition mul_double (r : Draw) (n : Z) : Z :=
  let p := draw_mant r * n in
  let s := Z.max 0 (Z.log2 p - 52) in
  round_shift p s * 2 ^ s.

(** [Math.floor(r * n)] *)
Definition floor_mul (r : Draw) (n : Z) : Z :=
  mul_double r n / 2 ^ draw_scale r.

(** ** shuffleArray *)

Section shuffle.
Context {A : Type}.

(** [[array[i], array[j]] = [array[j], array[i]]]: both reads happen
    first, then [array[i]] and [array[j]] are written in that order.  In
    the loop below [0 <= j <= i < array.length], so both reads hit; the
    fall-through branch is never taken there. *)
Definition swap (array : list A) (i j : nat) : list A :=
  match array !! j, array !! i with
  | Some aj, Some ai => <[j := ai]> (<[i := aj]> array)
  | _, _ => array
  end.

(** The [for] loop of [shuffleArray], entered with counter [i]: it runs
    while [i > 0] and decrements [i] after each pass. *)
Fixpoint shuffle_loop (i : nat) (array : list A) (rng : RandomSource)
  : list A * RandomSource :=
  match i with
  | O => (array, rng)
  | S i' =>
      let '(r, rng') := Math_random rng in
      let j := Z.to_nat (floor_mul r (Z.of_nat i + 1)) in
      shuffle_loop i' (swap array i j) rng'
  end.

(** The exchange of positions [i] and [j], as a map on positions. *)
Definition transpose (i j k : nat) : nat :=
  if decide (k = i) then j else if decide (k = j) then i else k.

(** The contents of the array when [shuffleArray] returns. *)
Definition shuffle_contents (array : list A) (rng : RandomSource)
  : list A * RandomSource :=
  shuffle_loop (Z.to_nat (Z.of_nat (length array) - 1)) array rng.
End shuffle.

(** ** Strings and parseInt

    Strings are byte strings holding UTF-8 text, as the source file does. *)

Local Open Scope string_scope.

Definition byte_of (c : ascii) : N := N_of_ascii c.

(** The ASCII members of ECMAScript's WhiteSpace and LineTerminator:
    TAB, LF, VT, FF, CR, SP. *)
Definition is_ws1 (c : ascii) : bool :=
  let n := byte_of c in
  ((9 <=? n) && (n <=? 13) || (n =? 32))%N.

(** U+00A0 in UTF-8. *)
Definition is_ws2 (c1 c2 : ascii) : bool :=
  ((byte_of c1 =? 194) && (byte_of c2 =? 160))%N.

(** The three-byte members: U+1680, U+2000..U+200A, U+2028, U+2029, U+202F,
    U+205F, U+3000, U+FEFF. *)
Definition is_ws3 (c1 c2 c3 : ascii) : bool :=
  let '(n1, n2, n3) := (byte_of c1, byte_of c2, byte_of c3) in
  ((n1 =? 225) && (n2 =? 154) && (n3 =? 128)
   || (n1 =? 226) && (n2 =? 128)
      && ((128 <=? n3) && (n3 <=? 138) || (n3 =? 168) || (n3 =? 169) || (n3 =? 175))
   || (n1 =? 226) && (n2 =? 129) && (n3 =? 159)
   || (n1 =? 227) && (n2 =? 128) && (n3 =? 128)
   || (n1 =? 239) && (n2 =? 187) && (n3 =? 191))%N.

(** Leading white space removed (the TrimString step of [parseInt]). *)
Fixpoint trim_start (s : string) : string :=
  match s with
  | String c1 s1 =>
      if is_ws1 c1 then trim_start s1
      else match s1 with
           | String c2 s2 =>
               if is_ws2 c1 c2 then trim_start s2
               else match s2 with
                    | String c3 s3 =>
                        if is_ws3 c1 c2 c3 then trim_start s3 else s
                    | EmptyString => s
                    end
           | EmptyString => s
           end
  | EmptyString => s
  end.

(** The value of a digit of the given radix, if the byte is one. *)
Definition digit_value (radix : Z) (c : ascii) : option Z :=
  let n := Z.of_N (byte_of c) in
  let v := if ((48 <=? n) && (n <=? 57))%Z then Some (n - 48)
           else if ((97 <=? n) && (n <=? 122))%Z then Some (n - 87)
           else if ((65 <=? n) && (n <=? 90))%Z then Some (n - 55)
           else None in
  match v with
  | Some d => if (d <? radix)%Z then Some d else None
  | None => None
  end.

(** The longest prefix of radix digits, most significant first. *)
Fixpoint digits_prefix (radix : Z) (s : string) : list Z :=
  match s with
  | String c s' =>
      match digit_value radix c with
      | Some d => d :: digits_prefix radix s'
      | None => []
      end
  | EmptyString => []
  end.

(** A leading sign: its value and the rest of the text. *)
Definition strip_sign (s : string) : Z * string :=
  match s with
  | String "-" r => (-1, r)
  | String "+" r => (1, r)
  | _ => (1, s)
  end.

(** A leading [0x] or [0X] selects radix 16, anything else radix 10. *)
Definition strip_hex_prefix (s : string) : Z * string :=
  match s with
  | String "0" (String "x" r) => (16, r)
  | String "0" (String "X" r) => (16, r)
  | _ => (10, s)
  end.

(** The number written by the leading digits; NaN when there is none. *)
Definition parse_digits (radix : Z) (s : string) : option Z :=
  match digits_prefix radix s with
  | [] => None
  | ds => Some (foldl (λ acc d, acc * radix + d) 0 ds)
  end.

(** [parseInt(s)] with no radix argument; [None] stands for NaN.  The result
    is the exact integer: the script only compares it with [1] and with an
    array length, and rounding a long numeral to a double keeps it on the
    same side of both. *)
Definition parseInt (s : string) : option Z :=
  let '(sign, s) := strip_sign (trim_start s) in
  let '(radix, s) := strip_hex_prefix s in
  (λ v, sign * v) <$> parse_digits radix s.

(** A number inside a template literal. *)
Definition Number_toString (n : Z) : string := pretty n.

Definition nbsp : string := String "194" (String "160" "").

(** Comparisons of a possibly-NaN number with an integer: every comparison
    with NaN is false. *)
Definition num_geb (num : option Z) (k : Z) : bool :=
  match num with Some n => (k <=? n)%Z | None => false end.
Definition num_leb (num : option Z) (k : Z) : bool :=
  match num with Some n => (n <=? k)%Z | None => false end.
Definition num_eqb (num : option Z) (k : Z) : bool :=
  match num with Some n => (n =? k)%Z | None => false end.

(** ** Data *)

(** An entry of the question bank of [questions.js]: text [q], options [o],
    index [a] of the right option. *)
Record Question := mkQuestion {
  q : string;
  o : list string;
  a : Z
}.

(** A value of the [answeredQuestions] map. *)
Record AnswerRecord := mkAnswer {
  selected : Z;
  correct : Z
}.

(** Arrays are mutable objects: a variable holds a reference into the store
    of arrays. *)
Abbreviation ref := positive.

(** ** The page *)

(** [el.classList.add(token)]: a token already present is not added again. *)
Definition classList_add (token : string) (classes : list string) : list string :=
  if bool_decide (token ∈ classes) then classes else classes ++ [token].

(** An option button.  [btn_click] is the listener [loadQuestion] may
    attach: the closure [() => handleOptionClick(button, i, question.a)]
    kept as the pair of [i] and [question.a]. *)
Record Button := mkButton {
  btn_textContent : string;
  btn_classList : list string;
  btn_dataset_index : string;
  btn_disabled : bool;
  btn_click : option (Z * Z)
}.

Definition btn_add_class (token : string) (b : Button) : Button :=
  mkButton (btn_textContent b) (classList_add token (btn_classList b))
    (btn_dataset_index b) (btn_disabled b) (btn_click b).

Definition btn_disable (b : Button) : Button :=
  mkButton (btn_textContent b) (btn_classList b) (btn_dataset_index b) true
    (btn_click b).

(** The elements the script looks up with [getElementById], reduced to the
    properties it reads or writes. *)
Record Page := mkPage {
  progressText : string;
  scoreText : string;
  questionText : string;
  optionsContainer : list Button;
  feedbackText : string;
  feedbackText_classList : list string;
  prevBtn_disabled : bool;
  nextBtn_disabled : bool;
  jumpInput_value : string;
  jumpInput_max : Z
}.

(** ** The state of the script

    [arrays] is the store of array objects; [allQuestions] is the global of
    [questions.js]; the next four fields are the variables the script
    declares; [alerts] collects the messages passed to [alert]; [random] is
    what [Math.random] will return. *)

Record State := mkState {
  arrays : gmap positive (list Question);
  allQuestions : ref;
  currentQuestions : ref;
  currentQuestionIndex : Z;
  score : Z;
  answeredQuestions : gmap Z AnswerRecord;
  page : Page;
  alerts : list string;
  random : RandomSource
}.

(** The elements of the array behind a reference.  Every reference the
    script holds is allocated; a dangling one reads as empty. *)
Definition contents (st : State) (r : ref) : list Question :=
  default [] (arrays st !! r).

Definition set_arrays (v : gmap positive (list Question)) (st : State) : State :=
  mkState v (allQuestions st) (currentQuestions st) (currentQuestionIndex st)
    (score st) (answeredQuestions st) (page st) (alerts st) (random st).

Definition set_currentQuestions (v : ref) (st : State) : State :=
  mkState (arrays st) (allQuestions st) v (currentQuestionIndex st)
    (score st) (answeredQuestions st) (page st) (alerts st) (random st).

Definition set_currentQuestionIndex (v : Z) (st : State) : State :=
  mkState (arrays st) (allQuestions st) (currentQuestions st) v
    (score st) (answeredQuestions st) (page st) (alerts st) (random st).

Definition set_score (v : Z) (st : State) : State :=
  mkState (arrays st) (allQuestions st) (currentQuestions st)
    (currentQuestionIndex st) v (answeredQuestions st) (page st) (alerts st)
    (random st).

Definition set_answeredQuestions (v : gmap Z AnswerRecord) (st : State) : State :=
  mkState (arrays st) (allQuestions st) (currentQuestions st)
    (currentQuestionIndex st) (score st) v (page st) (alerts st) (random st).

Definition set_page (v : Page) (st : State) : State :=
  mkState (arrays st) (allQuestions st) (currentQuestions st)
    (currentQuestionIndex st) (score st) (answeredQuestions st) v (alerts st)
    (random st).

Definition set_random (v : RandomSource) (st : State) : State :=
  mkState (arrays st) (allQuestions st) (currentQuestions st)
    (currentQuestionIndex st) (score st) (answeredQuestions st) (page st)
    (alerts st) v.

(** [alert(message)]: the message is shown to the user; the script goes on. *)
Definition alert (message : string) (st : State) : State :=
  mkState (arrays st) (allQuestions st) (currentQuestions st)
    (currentQuestionIndex st) (score st) (answeredQuestions st) (page st)
    (alerts st ++ [message]) (random st).

(** ** The functions of the script *)

(** [[...array]]: a new array with the elements of [array]. *)
Definition spread (array : ref) (st : State) : ref * State :=
  let fresh_ref := fresh (dom (arrays st)) in
  (fresh_ref, set_arrays (<[fresh_ref := contents st array]> (arrays st)) st).

(** [shuffleArray(array)]: the loop rearranges the elements of the array it
    was given and the function returns that same array.  The loop touches
    nothing but this array and the random source. *)
Definition shuffleArray (array : ref) (st : State) : ref * State :=
  let '(shuffled, rng) := shuffle_contents (contents st array) (random st) in
  (array, set_random rng (set_arrays (<[array := shuffled]> (arrays st)) st)).

(** [updateScore()] *)
Definition updateScore (st : State) : State :=
  let p := page st in
  set_page
    (mkPage (progressText p) ("النتيجة: " +:+ Number_toString (score st))
       (questionText p) (optionsContainer p) (feedbackText p)
       (feedbackText_classList p) (prevBtn_disabled p) (nextBtn_disabled p)
       (jumpInput_value p) (jumpInput_max p))
    st.

(** The button that the callback of [question.o.forEach] builds for option
    [i] with text [option]. *)
Definition make_button (question : Question) (questionData : option AnswerRecord)
    (i : nat) (option : string) : Button :=
  let i := Z.of_nat i in
  match questionData with
  | Some data =>
      let c1 := if (i =? a question)%Z then classList_add "correct" else id in
      let c2 := if ((i =? selected data) && negb (i =? a question))%Z
                then classList_add "incorrect" else id in
      mkButton option (c2 (c1 (classList_add "option-btn" [])))
        (Number_toString i) true None
  | None =>
      mkButton option (classList_add "option-btn" []) (Number_toString i)
        false (Some (i, a question))
  end.

(** [loadQuestion(index)] *)
Definition loadQuestion (index : Z) (st : State) : State :=
  let questions := contents st (currentQuestions st) in
  let len := Z.of_nat (length questions) in
  if ((index <? 0) || (len <=? index))%Z then st
  else
    match questions !! Z.to_nat index with
    | None => st
    | Some question =>
        let questionData := answeredQuestions st !! index in
        let p := page st in
        let isCorrect :=
          match questionData with
          | Some data => Some (selected data =? correct data)%Z
          | None => None
          end in
        set_page
          (mkPage
             ("سؤال " +:+ Number_toString (index + 1) +:+ " من "
                +:+ Number_toString len)
             (scoreText p)
             (q question)
             (imap (make_button question questionData) (o question))
             match isCorrect with
             | Some true => "إجابة صحيحة!"
             | Some false => "إجابة خاطئة"
             | None => nbsp
             end
             match isCorrect with
             | Some true => classList_add "feedback-correct" []
             | Some false => classList_add "feedback-incorrect" []
             | None => []
             end
             (index =? 0)%Z
             (index =? len - 1)%Z
             (jumpInput_value p)
             (jumpInput_max p))
          st
    end.

(** [startQuiz()] *)
Definition startQuiz (st : State) : State :=
  let '(copy, st) := spread (allQuestions st) st in
  let '(shuffled, st) := shuffleArray copy st in
  let st := set_currentQuestions shuffled st in
  let st := set_currentQuestionIndex 0 st in
  let st := set_score 0 st in
  let st := set_answeredQuestions ∅ st in
  let p := page st in
  let st :=
    set_page
      (mkPage (progressText p) (scoreText p) (questionText p)
         (optionsContainer p) (feedbackText p) (feedbackText_classList p)
         (prevBtn_disabled p) (nextBtn_disabled p) (jumpInput_value p)
         (Z.of_nat (length (contents st (currentQuestions st)))))
      st in
  let st := updateScore st in
  loadQuestion (currentQuestionIndex st) st.

(** [handleOptionClick(button, selectedIndex, correctIndex)]; [button] is
    the position of the clicked button among the children of
    [optionsContainer]. *)
Definition handleOptionClick (button : nat) (selectedIndex correctIndex : Z)
    (st : State) : State :=
  let st :=
    set_answeredQuestions
      (<[currentQuestionIndex st := mkAnswer selectedIndex correctIndex]>
         (answeredQuestions st))
      st in
  let isCorrect := (selectedIndex =? correctIndex)%Z in
  let st := if isCorrect then set_score (score st + 1) st else st in
  let p := page st in
  let marked :=
    alter (btn_add_class (if isCorrect then "correct" else "incorrect"))
      button (optionsContainer p) in
  let shown :=
    (λ btn,
       let btn := btn_disable btn in
       let btnIndex := parseInt (btn_dataset_index btn) in
       if num_eqb btnIndex correctIndex
       then btn_add_class "show-correct" btn else btn) <$> marked in
  let st :=
    set_page
      (mkPage (progressText p) (scoreText p) (questionText p) shown
         (if isCorrect then "إجابة صحيحة!" else "إجابة خاطئة")
         (classList_add
            (if isCorrect then "feedback-correct" else "feedback-incorrect")
            (feedbackText_classList p))
         (prevBtn_disabled p) (nextBtn_disabled p) (jumpInput_value p)
         (jumpInput_max p))
      st in
  updateScore st.

(** [nextQuestion()] *)
Definition nextQuestion (st : State) : State :=
  let len := Z.of_nat (length (contents st (currentQuestions st))) in
  if (currentQuestionIndex st <? len - 1)%Z then
    let st := set_currentQuestionIndex (currentQuestionIndex st + 1) st in
    loadQuestion (currentQuestionIndex st) st
  else st.

(** [prevQuestion()] *)
Definition prevQuestion (st : State) : State :=
  if (0 <? currentQuestionIndex st)%Z then
    let st := set_currentQuestionIndex (currentQuestionIndex st - 1) st in
    loadQuestion (currentQuestionIndex st) st
  else st.

(** The text of the alert of [jumpToQuestion] for an array of [len]
    elements. *)
Definition jump_alert_text (len : Z) : string :=
  "الرجاء إدخال رقم بين 1 و " +:+ Number_toString len.

Definition set_jumpInput_value (v : string) (st : State) : State :=
  let p := page st in
  set_page
    (mkPage (progressText p) (scoreText p) (questionText p)
       (optionsContainer p) (feedbackText p) (feedbackText_classList p)
       (prevBtn_disabled p) (nextBtn_disabled p) v (jumpInput_max p))
    st.

(** [jumpToQuestion()].  In the first branch [num] is a number, so
    [default 0 num] is that number. *)
Definition jumpToQuestion (st : State) : State :=
  let len := Z.of_nat (length (contents st (currentQuestions st))) in
  let num := parseInt (jumpInput_value (page st)) in
  if num_geb num 1 && num_leb num len then
    let st := set_currentQuestionIndex (default 0 num - 1) st in
    let st := loadQuestion (currentQuestionIndex st) st in
    set_jumpInput_value "" st
  else
    alert (jump_alert_text len) st.

(** ** Events

    The script runs [startQuiz] once when the page has loaded and from then
    on only reacts to the listeners it has installed.  A click on a disabled
    button, or on a button without a listener, calls nothing. *)

Inductive Event :=
  | ClickOption (k : nat)          (* a click on the k-th option button *)
  | ClickNext
  | ClickPrev
  | ClickShuffle
  | ClickJump
  | KeyupJumpInput (key : string)  (* a key released in the jump input *)
  | TypeJumpInput (value : string) (* the user edits the jump input *).

Definition dispatch (e : Event) (st : State) : State :=
  match e with
  | ClickOption k =>
      match optionsContainer (page st) !! k with
      | Some btn =>
          if btn_disabled btn then st
          else match btn_click btn with
               | Some (i, correctIndex) => handleOptionClick k i correctIndex st
               | None => st
               end
      | None => st
      end
  | ClickNext => if nextBtn_disabled (page st) then st else nextQuestion st
  | ClickPrev => if prevBtn_disabled (page st) then st else prevQuestion st
  | ClickShuffle => startQuiz st
  | ClickJump => jumpToQuestion st
  | KeyupJumpInput key =>
      if bool_decide (key = "Enter") then jumpToQuestion st else st
  | TypeJumpInput value => set_jumpInput_value value st
  end.

(** The state in which the script's first [startQuiz()] runs: the variables
    hold their declared initial values, [currentQuestions] is an empty array
    of its own, [allQuestions] is the bank array of [questions.js], and no
    button of the page carries a listener of this script yet. *)
Definition declared (st : State) : Prop :=
  arrays st !! currentQuestions st = Some []
  ∧ is_Some (arrays st !! allQuestions st)
  ∧ currentQuestions st ≠ allQuestions st
  ∧ currentQuestionIndex st = 0
  ∧ score st = 0
  ∧ answeredQuestions st = ∅
  ∧ Forall (λ btn, btn_click btn = None) (optionsContainer (page st)).

Inductive reachable : State → Prop :=
  | reachable_load st : declared st → reachable (startQuiz st)
  | reachable_event e st : reachable st → reachable (dispatch e st).

(** The number of entries of [answeredQuestions] whose selected option is
    the right one. *)
Definition is_right (entry : Z * AnswerRecord) : Prop :=
  selected entry.2 = correct entry.2.

Global Instance is_right_dec entry : Decision (is_right entry) :=
  Z.eq_dec (selected entry.2) (correct entry.2).

Definition count_correct (answers : gmap Z AnswerRecord) : Z :=
  Z.of_nat (size (filter is_right answers)).

(** ** The shuffle in the words of the specification *)

Local Open Scope Z_scope.

(** The Fisher-Yates steps in the words of the specification: the index [i]
    runs from [length - 1] down to [1]; the pass for [i] takes the next draw
    [r], sets [j] to the floor of [r * (i + 1)] and exchanges the elements
    at [i] and [j].  [spec_steps n rng] lists the pairs [(i, j)] in the order
    of the passes for a sequence of [n] elements. *)
Definition spec_steps (n : nat) (rng : RandomSource) : list (nat * nat) :=
  imap (λ k i, (i, Z.to_nat (floor_mul (rng k) (Z.of_nat i + 1))))
    (reverse (seq 1 (n - 1))).

(** The exchange of the elements at positions [i] and [j], position by
    position: position [i] holds what was at [j], position [j] what was at
    [i], every other position what it held. *)
Definition spec_exchange {A} (l : list A) (i j : nat) : list A :=
  imap (λ k x,
          if decide (k = i) then default x (l !! j)
          else if decide (k = j) then default x (l !! i)
          else x) l.

Definition spec_shuffle {A} (l : list A) (rng : RandomSource) : list A :=
  foldl (λ acc step, spec_exchange acc step.1 step.2) l
    (spec_steps (length l) rng).

(** ** Invariants of the reachable states *)

(** What holds of the variables: the score is the recount, the index is a
    position of the current array (or [0] when that array is empty), the two
    arrays are distinct objects and hold the same elements. *)
Definition vars_inv (st : State) : Prop :=
  score st = count_correct (answeredQuestions st)
  ∧ 0 ≤ currentQuestionIndex st
      ≤ Z.max 0 (Z.of_nat (length (contents st (currentQuestions st))) - 1)
  ∧ is_Some (arrays st !! allQuestions st)
  ∧ currentQuestions st ≠ allQuestions st
  ∧ contents st (currentQuestions st) ≡ₚ contents st (allQuestions st).

(** What holds of the option buttons: once the current question is answered
    they are all disabled, and a listener on the [k]-th button was built for
    option [k] of the current question. *)
Definition page_inv (st : State) : Prop :=
  (is_Some (answeredQuestions st !! currentQuestionIndex st) →
   Forall (λ btn, btn_disabled btn = true) (optionsContainer (page st)))
  ∧ (∀ k btn i c,
       optionsContainer (page st) !! k = Some btn →
       btn_click btn = Some (i, c) →
       ∃ question,
         contents st (currentQuestions st) !! Z.to_nat (currentQuestionIndex st)
           = Some question
         ∧ c = a question ∧ i = Z.of_nat k ∧ (k < length (o question))%nat).

Definition inv (st : State) : Prop := vars_inv st ∧ page_inv st.

(** What [startQuiz] needs of the state it runs in. *)
Definition start_ok (st : State) : Prop :=
  is_Some (arrays st !! allQuestions st)
  ∧ (contents st (allQuestions st) = [] →
     Forall (λ btn, btn_click btn = None) (optionsContainer (page st))).

(** ** Sessions and sample data *)

(** The events of a list, one after the other. *)
Definition run (events : list Event) (st : State) : State :=
  foldl (λ st e, dispatch e st) st events.

(** The draw [0]. *)
Definition draw_zero : Draw := mkDraw 0 1 eq_refl.

Definition rng_zero : RandomSource := λ _, draw_zero.

(** The draw [1/2]. *)
Definition draw_half : Draw := mkDraw 1 1 eq_refl.

Definition rng_half : RandomSource := λ _, draw_half.

(** The double nearest to one third, printed [0.3333333333333333]. *)
Definition draw_third : Draw := mkDraw 6004799503160661 54 eq_refl.

Definition Q0 : Question := mkQuestion "first" ["a"; "b"; "c"] 1.
Definition Q1 : Question := mkQuestion "second" ["a"; "b"] 0.
Definition Q2 : Question := mkQuestion "third" ["a"; "b"; "c"] 2.

Definition blank_page : Page := mkPage "" "" "" [] "" [] false false "" 0.

Definition sample_declared (bank : list Question) : State :=
  mkState {[ 1%positive := bank; 2%positive := [] ]} 1%positive 2%positive
    0 0 ∅ blank_page [] rng_zero.

(** The page has loaded with the three sample questions; the order drawn is
    [Q1; Q2; Q0]. *)
Definition sample_started : State := startQuiz (sample_declared [Q0; Q1; Q2]).

(** The first question answered rightly, the second one wrongly, then back
    to the first one. *)
Definition sample_session : State :=
  run [ClickOption 0; ClickNext; ClickOption 1; ClickPrev] sample_started.

(** The first sample question answered rightly. *)
Definition sample_answered : State := dispatch (ClickOption 0) sample_started.

(** The page has loaded with an empty bank. *)
Definition sample_empty : State := sample_declared [].

(** A store with one array of two questions. *)
Definition sample_pair : State :=
  mkState {[ 1%positive := [Q0; Q1] ]} 1%positive 1%positive 0 0 ∅ blank_page
    [] rng_zero.

(** A store whose bank holds a single question. *)
Definition sample_single : State := sample_declared [Q0].

(** The sample session, two questions answered, looking at the second one. *)
Definition sample_second : State :=
  run [ClickOption 0; ClickNext; ClickOption 1] sample_started.

(** ** What the page shows

    The texts of [loadQuestion], [handleOptionClick] and [updateScore]. *)

Definition score_line (n : Z) : string := "النتيجة: " +:+ Number_toString n.

Definition progress_line (index len : Z) : string :=
  "سؤال " +:+ Number_toString (index + 1) +:+ " من " +:+ Number_toString len.

Definition feedback_line (isCorrect : bool) : string :=
  if isCorrect then "إجابة صحيحة!" else "إجابة خاطئة".

Definition feedback_class (isCorrect : bool) : string :=
  if isCorrect then "feedback-correct" else "feedback-incorrect".

(** The page agrees with the variables: the score line and the bound of the
    jump input always; and, when there is a current question, its text, the
    progress line, the two navigation buttons, one button per option and the
    feedback for the recorded answer. *)
Definition shown (st : State) : Prop :=
  let p := page st in
  let index := currentQuestionIndex st in
  let len := Z.of_nat (length (contents st (currentQuestions st))) in
  scoreText p = score_line (score st)
  ∧ jumpInput_max p = len
  ∧ ∀ question,
      contents st (currentQuestions st) !! Z.to_nat index = Some question →
      questionText p = q question
      ∧ progressText p = progress_line index len
      ∧ prevBtn_disabled p = (index =? 0)
      ∧ nextBtn_disabled p = (index =? len - 1)
      ∧ length (optionsContainer p) = length (o question)
      ∧ (∀ k btn, optionsContainer p !! k = Some btn →
           o question !! k = Some (btn_textContent btn)
           ∧ btn_dataset_index btn = Number_toString (Z.of_nat k)
           ∧ (answeredQuestions st !! index = None →
              btn_disabled btn = false
              ∧ btn_click btn = Some (Z.of_nat k, a question)
              ∧ btn_classList btn = ["option-btn"]))
      ∧ match answeredQuestions st !! index with
        | Some data =>
            feedbackText p = feedback_line (selected data =? correct data)
            ∧ feedbackText_classList p
              = [feedback_class (selected data =? correct data)]
        | None => feedbackText p = nbsp ∧ feedbackText_classList p = []
        end.

(** Every recorded answer belongs to a question of the current array: its
    key is a position of the array, its [correct] is that question's right
    index and its [selected] is one of that question's options. *)
Definition answers_ok (st : State) : Prop :=
  ∀ k data, answeredQuestions st !! k = Some data →
    0 ≤ k
    ∧ ∃ question,
        contents st (currentQuestions st) !! Z.to_nat k = Some question
        ∧ correct data = a question
        ∧ 0 ≤ selected data < Z.of_nat (length (o question)).

(** * Properties *)

(** The field updates unfold under [cbn]. *)
Arguments set_arrays _ _ /.
Arguments set_currentQuestions _ _ /.
Arguments set_currentQuestionIndex _ _ /.
Arguments set_score _ _ /.
Arguments set_answeredQuestions _ _ /.
Arguments set_page _ _ /.
Arguments set_random _ _ /.
Arguments set_jumpInput_value _ _ /.
Arguments alert _ _ /.
Arguments updateScore _ /.

(** ** The shuffle *)

Section shuffle_facts.
Context {A : Type}.
Implicit Types (l : list A) (rng : RandomSource).

Lemma swap_length l i j : length (swap l i j) = length l.
Proof.
  unfold swap. destruct (l !! j), (l !! i); auto.
  by rewrite !length_insert.
Qed.

Lemma transpose_inj i j : Inj (=) (=) (transpose i j).
Proof.
  intros k1 k2. unfold transpose.
  repeat case_decide; intros; subst; congruence.
Qed.

Lemma swap_lookup l i j k :
  (i < length l)%nat → (j < length l)%nat →
  swap l i j !! k = l !! transpose i j k.
Proof.
  intros Hi Hj. unfold swap, transpose.
  destruct (lookup_lt_is_Some_2 l j Hj) as [aj Haj].
  destruct (lookup_lt_is_Some_2 l i Hi) as [ai Hai].
  rewrite Haj, Hai.
  destruct (decide (k = j)) as [->|Hkj].
  - rewrite list_lookup_insert_eq by (by rewrite length_insert).
    case_decide; subst; congruence.
  - rewrite list_lookup_insert_ne by done.
    destruct (decide (k = i)) as [->|Hki].
    + by rewrite list_lookup_insert_eq.
    + by rewrite list_lookup_insert_ne.
Qed.

Lemma swap_Permutation l i j : swap l i j ≡ₚ l.
Proof.
  destruct (decide (i < length l ∧ j < length l)%nat) as [[Hi Hj]|Hout].
  - apply Permutation_inj. split; [apply swap_length|].
    exists (transpose i j). split; [apply transpose_inj|].
    intros k. by apply swap_lookup.
  - unfold swap.
    destruct (l !! j) as [aj|] eqn:Haj; [|done].
    destruct (l !! i) as [ai|] eqn:Hai; [|done].
    apply lookup_lt_Some in Haj, Hai. lia.
Qed.

Lemma shuffle_loop_Permutation i l rng : (shuffle_loop i l rng).1 ≡ₚ l.
Proof.
  revert l rng. induction i as [|i IH]; intros l rng; simpl; [done|].
  rewrite IH. apply swap_Permutation.
Qed.

Lemma shuffle_contents_Permutation l rng : (shuffle_contents l rng).1 ≡ₚ l.
Proof. apply shuffle_loop_Permutation. Qed.

Lemma shuffle_contents_length l rng :
  length (shuffle_contents l rng).1 = length l.
Proof. apply Permutation_length, shuffle_contents_Permutation. Qed.
End shuffle_facts.

Lemma draw_facts (r : Draw) :
  0 ≤ draw_mant r < 2 ^ 53 ∧ 1 ≤ draw_scale r ≤ 1074
  ∧ draw_mant r < 2 ^ draw_scale r.
Proof.
  destruct r as [m k Hok]. cbn. unfold draw_wf in Hok.
  repeat (apply andb_prop in Hok as [Hok ?]). lia.
Qed.

Lemma round_shift_close (p s : Z) :
  0 ≤ p → 0 ≤ s →
  0 ≤ round_shift p s
  ∧ 2 * (round_shift p s * 2 ^ s) ≤ 2 * p + 2 ^ s
  ∧ 2 * p ≤ 2 * (round_shift p s * 2 ^ s) + 2 ^ s
  ∧ (s = 0 → round_shift p s = p).
Proof.
  intros Hp Hs. unfold round_shift.
  assert (Hpow : 0 < 2 ^ s) by (apply Z.pow_pos_nonneg; lia).
  pose proof (Z.div_mod p (2 ^ s) ltac:(lia)) as Hdm.
  pose proof (Z.mod_pos_bound p (2 ^ s) Hpow) as Hmod.
  assert (Hq : 0 ≤ p / 2 ^ s) by (apply Z.div_pos; lia).
  split_and!.
  - repeat case_match; lia.
  - repeat case_match; lia.
  - repeat case_match; lia.
  - intros ->. change (2 ^ 0) with 1 in *. rewrite Z.mod_1_r, Z.div_1_r in *.
    by cbn.
Qed.

Lemma mul_double_close (r : Draw) (n : Z) :
  0 ≤ n →
  let p := draw_mant r * n in
  0 ≤ mul_double r n
  ∧ 2 ^ 53 * mul_double r n ≤ (2 ^ 53 + 1) * p
  ∧ (2 ^ 53 - 1) * p ≤ 2 ^ 53 * mul_double r n
  ∧ (p < 2 ^ 53 → mul_double r n = p)
  ∧ (0 < n → mul_double r n < n * 2 ^ draw_scale r).
Proof.
  intros Hn p. destruct (draw_facts r) as (Hm & Hk & Hlt).
  assert (Hp : 0 ≤ p) by (subst p; lia).
  unfold mul_double. fold p.
  set (s := Z.max 0 (Z.log2 p - 52)).
  assert (Hs : 0 ≤ s) by lia.
  destruct (round_shift_close p s Hp Hs) as (Hpos & Hup & Hdown & Hexact).
  assert (Hpow : 0 < 2 ^ s) by (apply Z.pow_pos_nonneg; lia).
  assert (Hbig : s = 0 ∨ (0 < s ∧ 2 ^ 52 * 2 ^ s ≤ p)).
  { destruct (decide (s = 0)) as [|Hne]; [by left|right].
    assert (Hs' : s = Z.log2 p - 52) by lia.
    split; [lia|].
    assert (0 < p).
    { destruct (decide (p = 0)) as [Hz|]; [|lia]. rewrite Hz in Hs'. cbn in Hs'. lia. }
    rewrite <- Z.pow_add_r by lia.
    replace (52 + s) with (Z.log2 p) by lia. by apply Z.log2_spec. }
  set (N := round_shift p s * 2 ^ s) in *.
  assert (Hs0 : s = 0 → N = p).
  { intros Hz. subst N. rewrite (Hexact Hz), Hz. change (2 ^ 0) with 1. lia. }
  split_and!.
  - subst N. lia.
  - destruct Hbig as [Hz|[_ Hbig]]; [rewrite (Hs0 Hz)|]; lia.
  - destruct Hbig as [Hz|[_ Hbig]]; [rewrite (Hs0 Hz)|]; lia.
  - intros Hsmall. apply Hs0.
    destruct (decide (p = 0)) as [Hz|Hnz].
    + subst s. rewrite Hz. by cbn.
    + assert (Z.log2 p < 53) by (apply Z.log2_lt_pow2; lia). lia.
  - intros Hn'.
    destruct Hbig as [Hz|[_ Hbig]].
    + rewrite (Hs0 Hz). subst p. nia.
    + destruct (decide (N < n * 2 ^ draw_scale r)) as [|Hge]; [done|exfalso].
      assert (H1 : 2 * n * (2 ^ draw_scale r - draw_mant r) ≤ 2 ^ s)
        by (subst p; nia).
      assert (H2 : 2 * n ≤ 2 ^ s) by nia.
      assert (H3 : 2 ^ 52 * 2 ^ s < 2 ^ 53 * n) by (subst p; nia).
      lia.
Qed.

(** The index that a pass of the loop draws lies in [[0, i]]. *)
Lemma floor_mul_range (r : Draw) (n : Z) :
  0 < n → 0 ≤ floor_mul r n < n.
Proof.
  intros Hn. unfold floor_mul.
  destruct (draw_facts r) as (_ & Hk & _).
  destruct (mul_double_close r n ltac:(lia)) as (Hpos & _ & _ & _ & Hlt).
  assert (Hpow : 0 < 2 ^ draw_scale r) by (apply Z.pow_pos_nonneg; lia).
  split.
  - by apply Z.div_pos.
  - apply Z.div_lt_upper_bound; [done|]. specialize (Hlt Hn). lia.
Qed.

(** The index drawn is the floor of [r * n] up to the rounding of the
    product. *)
Lemma floor_mul_spec (r : Draw) (n : Z) :
  0 < n →
  let j := floor_mul r n in
  let p := draw_mant r * n in
  let d := 2 ^ draw_scale r in
  j * d * 2 ^ 53 ≤ p * (2 ^ 53 + 1)
  ∧ p * (2 ^ 53 - 1) < (j + 1) * d * 2 ^ 53
  ∧ (p < 2 ^ 53 → j = p / d).
Proof.
  intros Hn j p d. subst j. unfold floor_mul. fold d.
  destruct (draw_facts r) as (_ & Hk & _).
  destruct (mul_double_close r n ltac:(lia)) as (Hpos & Hup & Hdown & Hexact & _).
  fold p in Hup, Hdown, Hexact.
  assert (Hd : 0 < d) by (apply Z.pow_pos_nonneg; lia).
  pose proof (Z.div_mod (mul_double r n) d ltac:(lia)) as Hdm.
  pose proof (Z.mod_pos_bound (mul_double r n) d Hd) as Hmod.
  split_and!.
  - nia.
  - nia.
  - intros Hsmall. by rewrite (Hexact Hsmall).
Qed.


Lemma draw_wf_intro (m k : Z) :
  0 ≤ m < 2 ^ 53 → 1 ≤ k ≤ 1074 → m < 2 ^ k → draw_wf m k = true.
Proof.
  intros Hm Hk Hlt. unfold draw_wf.
  repeat (apply andb_true_intro; split); lia.
Qed.

(** Every index of [[0, n)] is drawn by some double. *)
Lemma floor_mul_onto (n j : Z) :
  0 ≤ j < n → n ≤ 2 ^ 26 →
  ∃ r : Draw, floor_mul r n = j.
Proof.
  intros Hj Hn.
  set (m := (j * 2 ^ 26 + n - 1) / n).
  assert (Hm1 : j * 2 ^ 26 ≤ m * n ≤ j * 2 ^ 26 + n - 1).
  { pose proof (Z.div_mod (j * 2 ^ 26 + n - 1) n ltac:(lia)) as Hdm.
    pose proof (Z.mod_pos_bound (j * 2 ^ 26 + n - 1) n ltac:(lia)) as Hmod.
    fold m in Hdm. lia. }
  assert (Hm0 : 0 ≤ m) by (apply Z.div_pos; lia).
  assert (Hm2 : m < 2 ^ 26) by nia.
  assert (Hok : draw_wf m 26 = true) by (apply draw_wf_intro; lia).
  exists (mkDraw m 26 Hok).
  destruct (floor_mul_spec (mkDraw m 26 Hok) n ltac:(lia)) as (_ & _ & Hexact).
  cbn in Hexact. rewrite Hexact by nia.
  symmetry. apply Z.div_unique with (r := m * n - j * 2 ^ 26); lia.
Qed.

Lemma shuffle_loop_steps {A} (i : nat) (l : list A) (rng : RandomSource) :
  (shuffle_loop i l rng).1 =
  foldl (λ acc step, swap acc step.1 step.2) l
    (imap (λ k i, (i, Z.to_nat (floor_mul (rng k) (Z.of_nat i + 1))))
       (reverse (seq 1 i))).
Proof.
  revert l rng. induction i as [|i IH]; intros l rng; [done|].
  rewrite seq_S, reverse_snoc. cbn [shuffle_loop Math_random imap foldl].
  rewrite IH. unfold compose. by replace (1 + i)%nat with (S i) by lia.
Qed.

Lemma spec_steps_range (n : nat) (rng : RandomSource) (i j : nat) :
  (i, j) ∈ spec_steps n rng → (1 ≤ i ≤ n - 1 ∧ j ≤ i)%nat.
Proof.
  unfold spec_steps. intros Hin.
  apply list_elem_of_lookup in Hin as [k Hk].
  rewrite list_lookup_imap in Hk.
  destruct (reverse (seq 1 (n - 1)) !! k) as [i'|] eqn:Hi'; [|done].
  simpl in Hk. injection Hk as <- <-.
  apply list_elem_of_lookup_2, elem_of_reverse, elem_of_seq in Hi'.
  split; [lia|].
  pose proof (floor_mul_range (rng k) (Z.of_nat i' + 1)). lia.
Qed.

(** The destructuring assignment of the loop is the exchange of the two
    positions. *)
Lemma swap_spec_exchange {A} (l : list A) (i j : nat) :
  (i < length l)%nat → (j < length l)%nat → swap l i j = spec_exchange l i j.
Proof.
  intros Hi Hj. apply list_eq. intros k.
  rewrite swap_lookup by done. unfold spec_exchange, transpose.
  rewrite list_lookup_imap.
  destruct (lookup_lt_is_Some_2 l i Hi) as [ai Hai].
  destruct (lookup_lt_is_Some_2 l j Hj) as [aj Haj].
  destruct (decide (k = i)) as [->|Hki]; [by rewrite Hai, Haj|].
  destruct (decide (k = j)) as [->|Hkj]; [by rewrite Hai, Haj|].
  by destruct (l !! k).
Qed.

Lemma foldl_swap_spec_exchange {A} (steps : list (nat * nat)) (l : list A) :
  (∀ i j, (i, j) ∈ steps → (i < length l ∧ j < length l)%nat) →
  foldl (λ acc step, swap acc step.1 step.2) l steps
  = foldl (λ acc step, spec_exchange acc step.1 step.2) l steps.
Proof.
  revert l. induction steps as [|[i j] steps IH]; intros l Hin; [done|].
  destruct (Hin i j) as [Hi Hj]; [by left|].
  cbn. rewrite <- (swap_spec_exchange l i j) by done.
  apply IH. intros i' j' Hin'. rewrite swap_length. apply Hin. by right.
Qed.

Lemma spec_steps_fst (n : nat) (rng : RandomSource) :
  (spec_steps n rng).*1 = reverse (seq 1 (n - 1)).
Proof.
  unfold spec_steps. apply list_eq. intros k.
  rewrite list_lookup_fmap, list_lookup_imap.
  by destruct (reverse (seq 1 (n - 1)) !! k).
Qed.

Lemma spec_steps_lookup (n : nat) (rng : RandomSource) (k i j : nat) :
  spec_steps n rng !! k = Some (i, j) →
  Z.of_nat j = floor_mul (rng k) (Z.of_nat i + 1).
Proof.
  unfold spec_steps. rewrite list_lookup_imap.
  destruct (reverse (seq 1 (n - 1)) !! k) as [i'|]; [|done].
  cbn. intros [= <- <-].
  pose proof (floor_mul_range (rng k) (Z.of_nat i' + 1)). lia.
Qed.

(** C8. [shuffleArray] leaves in the array a permutation of what it held:
    the same elements with the same multiplicities, hence as many.  The
    result is the one of the Fisher-Yates passes: the index [i] runs from
    [length - 1] down to [1]; the pass for [i] exchanges the elements at
    positions [i] and [j], where [j] lies in [[0, i]] and is the floor of
    the double product of the pass's draw [r = mant / 2^scale] and [i + 1] -
    the floor of [r * (i + 1)] up to the rounding of that product, of
    relative size [2^-53], and exactly that floor when the product needs no
    rounding.  Each [j] of [[0, i]] is the outcome of some draw (shown for
    arrays of up to [2^26] elements), the draws for [j] being those of an
    interval of length [1 / (i + 1)]. *)
Theorem shuffleArray_permutation (array : ref) (st : State) :
  let x := contents st array in
  let shuffled := contents (shuffleArray array st).2 (shuffleArray array st).1 in
  let steps := spec_steps (length x) (random st) in
  shuffled ≡ₚ x
  ∧ length shuffled = length x
  ∧ shuffled = spec_shuffle x (random st)
  ∧ steps.*1 = reverse (seq 1 (length x - 1))
  ∧ (∀ k i j, steps !! k = Some (i, j) →
       let r := random st k in
       let product := draw_mant r * (Z.of_nat i + 1) in
       (1 ≤ i ≤ length x - 1)%nat
       ∧ (j ≤ i)%nat
       ∧ Z.of_nat j * 2 ^ draw_scale r * 2 ^ 53 ≤ product * (2 ^ 53 + 1)
       ∧ product * (2 ^ 53 - 1) < (Z.of_nat j + 1) * 2 ^ draw_scale r * 2 ^ 53
       ∧ (product < 2 ^ 53 → Z.of_nat j = product / 2 ^ draw_scale r))
  ∧ (∀ i j : nat, (j ≤ i)%nat → Z.of_nat i < 2 ^ 26 →
       ∃ r : Draw, floor_mul r (Z.of_nat i + 1) = Z.of_nat j).
Proof.
  intros x shuffled steps.
  assert (Hs : shuffled = (shuffle_contents x (random st)).1).
  { subst shuffled x. unfold shuffleArray.
    destruct (shuffle_contents _ _) as [l rng] eqn:Hl.
    unfold contents at 1. cbn. by rewrite lookup_insert_eq. }
  rewrite Hs. split_and!.
  - apply shuffle_contents_Permutation.
  - apply shuffle_contents_length.
  - unfold shuffle_contents, spec_shuffle. rewrite shuffle_loop_steps.
    replace (Z.to_nat (Z.of_nat (length x) - 1)) with (length x - 1)%nat
      by lia.
    apply (foldl_swap_spec_exchange (spec_steps (length x) (random st))).
    intros i j Hin. apply spec_steps_range in Hin. lia.
  - apply spec_steps_fst.
  - intros k i j Hk r product.
    pose proof (spec_steps_lookup _ _ _ _ _ Hk) as Hj. fold r in Hj.
    pose proof (spec_steps_range _ _ i j (list_elem_of_lookup_2 _ _ _ Hk))
      as [Hi Hji].
    destruct (floor_mul_spec r (Z.of_nat i + 1) ltac:(lia))
      as (Hlow & Hhigh & Hexact).
    rewrite <- Hj in Hlow, Hhigh, Hexact. split_and!; try done; lia.
  - intros i j Hji Hi. apply floor_mul_onto; lia.
Qed.

(** The draw [0.3333333333333333] for an array of three elements: the
    double product with [3] rounds up to [1], so the first pass takes
    [j = 1], where the exact product has floor [0]. *)
Example shuffle_third :
  floor_mul draw_third 3 = 1
  ∧ draw_mant draw_third * 3 / 2 ^ draw_scale draw_third = 0
  ∧ (shuffle_contents ["a"; "b"; "c"] (λ _, draw_third)).1 = ["c"; "a"; "b"].
Proof. split_and!; by vm_compute. Qed.

(** Four elements shuffled with every draw [1/2]: the passes exchange the
    positions [(3, 2)], [(2, 1)] and [(1, 1)]. *)
Example shuffle_half :
  spec_steps 4 rng_half = [(3, 2); (2, 1); (1, 1)]%nat
  ∧ (shuffle_contents ["a"; "b"; "c"; "d"] rng_half).1 = ["a"; "d"; "b"; "c"].
Proof. split; by vm_compute. Qed.

(** ** The invariants hold in every reachable state *)

Lemma count_correct_empty : count_correct ∅ = 0.
Proof. unfold count_correct. by rewrite map_filter_empty, map_size_empty. Qed.

Lemma count_correct_insert (answers : gmap Z AnswerRecord) (i : Z) (r : AnswerRecord) :
  answers !! i = None →
  count_correct (<[i := r]> answers)
  = count_correct answers + (if (selected r =? correct r)%Z then 1 else 0).
Proof.
  intros Hnone. unfold count_correct.
  destruct (Z.eqb_spec (selected r) (correct r)) as [Heq|Hne].
  - rewrite map_filter_insert_True by done.
    rewrite map_size_insert_None; [lia|].
    by apply map_lookup_filter_None_2; left.
  - rewrite map_filter_insert_False by done.
    rewrite delete_id by done. lia.
Qed.

Lemma loadQuestion_only_page (index : Z) (st : State) :
  ∃ p, loadQuestion index st = set_page p st.
Proof.
  unfold loadQuestion. destruct (_ || _); [by exists (page st); destruct st|].
  destruct (_ !! _); [by eexists|by exists (page st); destruct st].
Qed.

Lemma loadQuestion_out_of_range (index : Z) (st : State) :
  index < 0 ∨ Z.of_nat (length (contents st (currentQuestions st))) ≤ index →
  loadQuestion index st = st.
Proof.
  intros Hout. unfold loadQuestion.
  destruct (Z.ltb_spec index 0); [done|].
  destruct (Z.leb_spec (Z.of_nat (length (contents st (currentQuestions st)))) index);
    [done|lia].
Qed.

Lemma loadQuestion_buttons (index : Z) (st : State) (question : Question) :
  0 ≤ index →
  contents st (currentQuestions st) !! Z.to_nat index = Some question →
  optionsContainer (page (loadQuestion index st))
  = imap (make_button question (answeredQuestions st !! index)) (o question).
Proof.
  intros Hlo Hq. unfold loadQuestion.
  pose proof (lookup_lt_Some _ _ _ Hq) as Hlt.
  destruct (Z.ltb_spec index 0); [lia|].
  destruct (Z.leb_spec (Z.of_nat (length (contents st (currentQuestions st)))) index);
    [lia|].
  cbn [orb]. by rewrite Hq.
Qed.

Lemma make_button_click question questionData k option i c :
  btn_click (make_button question questionData k option) = Some (i, c) →
  questionData = None ∧ i = Z.of_nat k ∧ c = a question.
Proof. destruct questionData; cbn; [done|]. by intros [= <- <-]. Qed.

Lemma make_button_disabled question data k option :
  btn_disabled (make_button question (Some data) k option) = true.
Proof. done. Qed.

(** Loading the question at a valid current index sets up the buttons. *)
Lemma loadQuestion_page_inv (st : State) :
  0 ≤ currentQuestionIndex st
    < Z.of_nat (length (contents st (currentQuestions st))) →
  page_inv (loadQuestion (currentQuestionIndex st) st).
Proof.
  intros Hidx.
  destruct (lookup_lt_is_Some_2 (contents st (currentQuestions st))
              (Z.to_nat (currentQuestionIndex st))) as [question Hq]; [lia|].
  pose proof (loadQuestion_buttons _ _ _ (proj1 Hidx) Hq) as Hbtns.
  destruct (loadQuestion_only_page (currentQuestionIndex st) st) as [p Hp].
  rewrite Hp in *. cbn in Hbtns. split; cbn; rewrite Hbtns.
  - intros [data Hdata]. rewrite Hdata. apply Forall_lookup.
    intros k btn Hk. rewrite list_lookup_imap in Hk.
    destruct (o question !! k); [|done]. by injection Hk as <-.
  - intros k btn i c Hk Hclick. rewrite list_lookup_imap in Hk.
    destruct (o question !! k) as [option|] eqn:Ho; [|done].
    injection Hk as <-. apply make_button_click in Hclick as (_ & -> & ->).
    exists question. split_and!; try done. by eapply lookup_lt_Some.
Qed.

(** [startQuiz] up to its last call: the state in which [loadQuestion(0)]
    runs. *)
Lemma startQuiz_unfold (st : State) :
  let bank := contents st (allQuestions st) in
  let l := fresh (dom (arrays st)) in
  let sh := shuffle_contents bank (random st) in
  let p := page st in
  startQuiz st
  = loadQuestion 0
      (mkState (<[l := sh.1]> (<[l := bank]> (arrays st)))
         (allQuestions st) l 0 0 ∅
         (mkPage (progressText p) ("النتيجة: " +:+ Number_toString 0)
            (questionText p) (optionsContainer p) (feedbackText p)
            (feedbackText_classList p) (prevBtn_disabled p)
            (nextBtn_disabled p) (jumpInput_value p)
            (Z.of_nat (length sh.1)))
         (alerts st) sh.2).
Proof.
  intros bank l sh p. unfold startQuiz, spread, shuffleArray.
  fold l. fold bank. unfold contents at 1. cbn.
  rewrite lookup_insert_eq. cbn. fold sh. destruct sh as [shuffled rng].
  cbn. unfold contents. cbn. by rewrite lookup_insert_eq.
Qed.

Lemma startQuiz_eq (st : State) :
  let bank := contents st (allQuestions st) in
  let l := fresh (dom (arrays st)) in
  let sh := shuffle_contents bank (random st) in
  ∃ p, optionsContainer p = optionsContainer (page st)
       ∧ startQuiz st
         = loadQuestion 0
             (mkState (<[l := sh.1]> (<[l := bank]> (arrays st)))
                (allQuestions st) l 0 0 ∅ p (alerts st) sh.2).
Proof.
  intros bank l sh. rewrite startQuiz_unfold. eexists. by split; [|reflexivity].
Qed.

Lemma contents_insert_eq m (l : ref) (x : list Question) all cur idx sc ans p al rng :
  contents (mkState (<[l := x]> m) all cur idx sc ans p al rng) l = x.
Proof. unfold contents. cbn. by rewrite lookup_insert_eq. Qed.

Lemma fresh_ref_unused (st : State) (r : ref) :
  is_Some (arrays st !! r) → fresh (dom (arrays st)) ≠ r.
Proof.
  intros Hr%elem_of_dom Heq. by apply (is_fresh (dom (arrays st))); rewrite Heq.
Qed.

Lemma declared_start_ok (st : State) : declared st → start_ok st.
Proof. intros (_ & Hall & _ & _ & _ & _ & Hbtns). by split. Qed.

Lemma inv_start_ok (st : State) : inv st → start_ok st.
Proof.
  intros [(_ & _ & Hall & _ & Hperm) [_ Hlisten]]. split; [done|].
  intros Hnil. rewrite Hnil in Hperm. apply Permutation_nil_r in Hperm.
  apply Forall_lookup. intros k btn Hk.
  destruct (btn_click btn) as [[i c]|] eqn:Hclick; [|done].
  destruct (Hlisten k btn i c Hk Hclick) as (question & Hq & _).
  by rewrite Hperm in Hq.
Qed.

Lemma startQuiz_inv (st : State) : start_ok st → inv (startQuiz st).
Proof.
  intros [Hall Hempty].
  destruct (startQuiz_eq st) as (p & Hp & ->).
  set (bank := contents st (allQuestions st)) in *.
  set (l := fresh (dom (arrays st))).
  set (sh := shuffle_contents bank (random st)).
  set (mid := mkState _ _ _ _ _ _ _ _ _).
  assert (Hl : l ≠ allQuestions st) by by apply fresh_ref_unused.
  assert (Hcur : contents mid (currentQuestions mid) = sh.1).
  { unfold contents, mid. cbn. by rewrite lookup_insert_eq. }
  assert (Hbank : arrays mid !! allQuestions mid = arrays st !! allQuestions st).
  { unfold mid. cbn. by rewrite !lookup_insert_ne. }
  assert (Hvars : vars_inv mid).
  { unfold vars_inv. rewrite Hcur. unfold contents at 1. rewrite Hbank.
    split_and!; cbn; try done; try lia.
    apply shuffle_contents_Permutation. }
  destruct (loadQuestion_only_page 0 mid) as [p' Hp'].
  split; [by rewrite Hp'|].
  destruct (decide (0 < Z.of_nat (length (contents mid (currentQuestions mid)))))
    as [Hlen|Hlen].
  - by apply (loadQuestion_page_inv mid).
  - assert (Hnil : sh.1 = []).
    { rewrite Hcur in Hlen. destruct sh.1; [done|]. simpl in Hlen. lia. }
    assert (Hbanknil : bank = []).
    { apply Permutation_nil_r. rewrite <- Hnil.
      symmetry. apply shuffle_contents_Permutation. }
    rewrite loadQuestion_out_of_range by lia.
    split; cbn.
    + rewrite lookup_empty. by intros [? ?].
    + intros k btn i c Hk Hclick. rewrite Hp in Hk.
      specialize (Hempty Hbanknil).
      by rewrite (Forall_lookup_1 _ _ _ _ Hempty Hk) in Hclick.
Qed.

(** Moving to a position of the current array and loading it. *)
Lemma goto_inv (j : Z) (st : State) :
  inv st →
  0 ≤ j < Z.of_nat (length (contents st (currentQuestions st))) →
  inv (loadQuestion j (set_currentQuestionIndex j st)).
Proof.
  intros [(Hscore & Hidx & Hall & Hne & Hperm) _] Hj.
  set (st' := set_currentQuestionIndex j st).
  destruct (loadQuestion_only_page j st') as [p Hp].
  split.
  - rewrite Hp. unfold vars_inv, contents in *. cbn. split_and!; try done; lia.
  - by apply (loadQuestion_page_inv st').
Qed.

Lemma nextQuestion_inv (st : State) : inv st → inv (nextQuestion st).
Proof.
  intros Hinv. unfold nextQuestion.
  destruct (Z.ltb_spec (currentQuestionIndex st)
              (Z.of_nat (length (contents st (currentQuestions st))) - 1));
    [|done].
  apply goto_inv; [done|].
  destruct Hinv as [(_ & Hidx & _) _]. lia.
Qed.

Lemma prevQuestion_inv (st : State) : inv st → inv (prevQuestion st).
Proof.
  intros Hinv. unfold prevQuestion.
  destruct (Z.ltb_spec 0 (currentQuestionIndex st)); [|done].
  apply goto_inv; [done|].
  destruct Hinv as [(_ & Hidx & _) _]. lia.
Qed.

Lemma set_jumpInput_value_inv (value : string) (st : State) :
  inv st → inv (set_jumpInput_value value st).
Proof. by intros [Hvars Hpage]. Qed.

Lemma alert_inv (message : string) (st : State) : inv st → inv (alert message st).
Proof. by intros [Hvars Hpage]. Qed.

Lemma jumpToQuestion_inv (st : State) : inv st → inv (jumpToQuestion st).
Proof.
  intros Hinv. unfold jumpToQuestion.
  destruct (parseInt _) as [n|]; cbn [num_geb num_leb andb]; [|by apply alert_inv].
  destruct (Z.leb_spec 1 n); [|by apply alert_inv].
  destruct (Z.leb_spec n (Z.of_nat (length (contents st (currentQuestions st)))));
    [|by apply alert_inv].
  apply set_jumpInput_value_inv. cbn [default andb].
  apply (goto_inv (n - 1) st); [done|lia].
Qed.

(** A button that can still dispatch a click: the current question has no
    answer yet. *)
Lemma enabled_button_unanswered (st : State) (k : nat) (btn : Button) :
  inv st →
  optionsContainer (page st) !! k = Some btn →
  btn_disabled btn = false →
  answeredQuestions st !! currentQuestionIndex st = None.
Proof.
  intros [_ [Hdis _]] Hk Hen.
  destruct (answeredQuestions st !! currentQuestionIndex st) eqn:Hans; [|done].
  rewrite (Forall_lookup_1 _ _ _ _ (Hdis (mk_is_Some _ _ eq_refl)) Hk) in Hen.
  done.
Qed.

(** [handleOptionClick] written out: what it stores, and what it does to the
    option buttons. *)
Lemma handleOptionClick_eq (k : nat) (i c : Z) (st : State) :
  ∃ p,
    handleOptionClick k i c st
    = mkState (arrays st) (allQuestions st) (currentQuestions st)
        (currentQuestionIndex st)
        (score st + (if i =? c then 1 else 0))
        (<[currentQuestionIndex st := mkAnswer i c]> (answeredQuestions st))
        p (alerts st) (random st)
    ∧ Forall (λ btn, btn_disabled btn = true) (optionsContainer p)
    ∧ ∀ k' btn', optionsContainer p !! k' = Some btn' →
        ∃ btn, optionsContainer (page st) !! k' = Some btn
               ∧ btn_click btn' = btn_click btn.
Proof.
  unfold handleOptionClick.
  destruct (i =? c); cbn; rewrite ?Z.add_0_r;
    (eexists; split_and!; [reflexivity| |]); cbn.
  1,3: apply Forall_fmap, Forall_true; intros btn; cbn;
         by destruct (num_eqb _ _).
  all: intros k' btn' Hk';
       rewrite list_lookup_fmap, list_lookup_alter in Hk';
       case_decide; subst;
       (destruct (optionsContainer (page st) !! k') as [btn|] eqn:Hbtn;
        [|done]);
       exists btn; (split; [done|]);
       cbn in Hk'; injection Hk' as <-;
       by destruct (num_eqb _ _).
Qed.

Lemma handleOptionClick_inv (st : State) (k : nat) (i c : Z) :
  inv st →
  answeredQuestions st !! currentQuestionIndex st = None →
  inv (handleOptionClick k i c st).
Proof.
  intros [(Hscore & Hidx & Hall & Hne & Hperm) [_ Hlisten]] Hnone.
  destruct (handleOptionClick_eq k i c st) as (p & -> & Hdis & Hbtns).
  split.
  - unfold vars_inv, contents in *. cbn. split_and!; try done; try lia.
    rewrite count_correct_insert by done. cbn. by rewrite Hscore.
  - split; cbn; [done|].
    intros k' btn' i' c' Hk' Hclick'.
    destruct (Hbtns k' btn' Hk') as (btn & Hk & Heq).
    rewrite Heq in Hclick'. by apply (Hlisten k' btn i' c').
Qed.

Lemma dispatch_inv (e : Event) (st : State) : inv st → inv (dispatch e st).
Proof.
  intros Hinv. destruct e as [k| | | | |key|value]; cbn.
  - destruct (optionsContainer (page st) !! k) as [btn|] eqn:Hk; [|done].
    destruct (btn_disabled btn) eqn:Hen; [done|].
    destruct (btn_click btn) as [[i c]|]; [|done].
    apply handleOptionClick_inv; [done|].
    by eapply enabled_button_unanswered.
  - destruct (nextBtn_disabled _); [done|]. by apply nextQuestion_inv.
  - destruct (prevBtn_disabled _); [done|]. by apply prevQuestion_inv.
  - by apply startQuiz_inv, inv_start_ok.
  - by apply jumpToQuestion_inv.
  - case_bool_decide; [|done]. by apply jumpToQuestion_inv.
  - by apply set_jumpInput_value_inv.
Qed.

Lemma reachable_inv (st : State) : reachable st → inv st.
Proof.
  induction 1 as [st Hdecl|e st _ IH].
  - by apply startQuiz_inv, declared_start_ok.
  - by apply dispatch_inv.
Qed.

(** ** Sessions *)

Lemma reachable_run (events : list Event) (st : State) :
  reachable st → reachable (run events st).
Proof.
  revert st. induction events as [|e events IH]; intros st Hst; [done|].
  apply IH. by constructor.
Qed.

Lemma sample_declared_ok (bank : list Question) : declared (sample_declared bank).
Proof.
  unfold declared, sample_declared. cbn. split_and!; done.
Qed.

Lemma sample_started_reachable : reachable sample_started.
Proof. apply reachable_load, sample_declared_ok. Qed.

Lemma sample_session_reachable : reachable sample_session.
Proof. apply reachable_run, sample_started_reachable. Qed.

(** C1. In every state the script can reach - after the first [startQuiz]
    and any sequence of clicks on options, next, previous, restart and jump -
    [score] is the number of entries of [answeredQuestions] whose selected
    index is the correct index. *)
Theorem score_is_recount (st : State) :
  reachable st → score st = count_correct (answeredQuestions st).
Proof. intros Hst. by destruct (reachable_inv st Hst) as [(Hscore & _) _]. Qed.

Lemma score_is_recount_witness :
  score sample_session = count_correct (answeredQuestions sample_session).
Proof. apply score_is_recount, sample_session_reachable. Defined.

Example sample_session_values :
  score sample_session = 1
  ∧ answeredQuestions sample_session !! 0 = Some (mkAnswer 0 0)
  ∧ answeredQuestions sample_session !! 1 = Some (mkAnswer 1 2)
  ∧ size (answeredQuestions sample_session) = 2%nat
  ∧ currentQuestionIndex sample_session = 0.
Proof. by vm_compute. Qed.

(** ** Answering *)

Lemma sample_answered_reachable : reachable sample_answered.
Proof. apply reachable_event, sample_started_reachable. Qed.

(** C2, as stated, fails on [handleOptionClick]: the function has no guard.
    Called on a state whose current question is answered, it signals
    nothing, replaces the stored record and counts a right choice again. *)
Lemma handleOptionClick_answers_again :
  answeredQuestions sample_answered !! currentQuestionIndex sample_answered
    = Some (mkAnswer 0 0)
  ∧ score sample_answered = 1
  ∧ score (handleOptionClick 0 0 0 sample_answered) = 2
  ∧ answeredQuestions (handleOptionClick 1 1 0 sample_answered)
      !! currentQuestionIndex sample_answered
    = Some (mkAnswer 1 0)
  ∧ alerts (handleOptionClick 0 0 0 sample_answered) = alerts sample_answered
  ∧ handleOptionClick 0 0 0 sample_answered ≠ sample_answered.
Proof.
  split_and!; by vm_compute.
Qed.

(** C2, amended.  In every reachable state whose current question is
    answered, all option buttons are disabled, so a click on any of them
    calls nothing: the whole state, the stored record and the score with it,
    stays as it is.  No error is signalled. *)
Theorem answered_click_ignored (st : State) (k : nat) :
  reachable st →
  is_Some (answeredQuestions st !! currentQuestionIndex st) →
  Forall (λ btn, btn_disabled btn = true) (optionsContainer (page st))
  ∧ dispatch (ClickOption k) st = st.
Proof.
  intros Hst Hans. destruct (reachable_inv st Hst) as [_ [Hdis _]].
  specialize (Hdis Hans). split; [done|]. cbn.
  destruct (optionsContainer (page st) !! k) as [btn|] eqn:Hk; [|done].
  by rewrite (Forall_lookup_1 _ _ _ _ Hdis Hk).
Qed.

Lemma answered_click_ignored_witness :
  Forall (λ btn, btn_disabled btn = true)
    (optionsContainer (page sample_answered))
  ∧ dispatch (ClickOption 1) sample_answered = sample_answered.
Proof.
  apply answered_click_ignored.
  - apply sample_answered_reachable.
  - exists (mkAnswer 0 0). by vm_compute.
Defined.

(** C5, as stated, fails on [handleOptionClick]: the function does not look
    at the range of [selectedIndex].  The first sample question has two
    options; called with index [7] the function signals nothing and stores
    the answer. *)
Lemma handleOptionClick_out_of_range :
  (o <$> contents sample_started (currentQuestions sample_started)
           !! Z.to_nat (currentQuestionIndex sample_started))
    = Some ["a"; "b"]
  ∧ answeredQuestions sample_started = ∅
  ∧ answeredQuestions (handleOptionClick 0 7 0 sample_started)
    = {[ 0 := mkAnswer 7 0 ]}
  ∧ alerts (handleOptionClick 0 7 0 sample_started) = alerts sample_started
  ∧ handleOptionClick 0 7 0 sample_started ≠ sample_started.
Proof.
  split_and!; by vm_compute.
Qed.

(** C5, amended.  [handleOptionClick] has no range check of its own; the
    range is kept by the listeners.  In every reachable state a click on the
    [k]-th option button either calls nothing and leaves the state as it is,
    or calls [handleOptionClick] with the index [k] of an existing option of
    the current question and with that question's right index. *)
Theorem click_passes_existing_option (st : State) (k : nat) :
  reachable st →
  dispatch (ClickOption k) st = st
  ∨ ∃ question,
      contents st (currentQuestions st) !! Z.to_nat (currentQuestionIndex st)
        = Some question
      ∧ 0 ≤ Z.of_nat k < Z.of_nat (length (o question))
      ∧ dispatch (ClickOption k) st
        = handleOptionClick k (Z.of_nat k) (a question) st.
Proof.
  intros Hst. destruct (reachable_inv st Hst) as [_ [_ Hlisten]]. cbn.
  destruct (optionsContainer (page st) !! k) as [btn|] eqn:Hk; [|by left].
  destruct (btn_disabled btn); [by left|].
  destruct (btn_click btn) as [[i c]|] eqn:Hclick; [|by left].
  destruct (Hlisten k btn i c Hk Hclick) as (question & Hq & -> & -> & Hlt).
  right. exists question. split_and!; try done; lia.
Qed.

Lemma click_passes_existing_option_witness :
  dispatch (ClickOption 1) sample_started = sample_started
  ∨ ∃ question,
      contents sample_started (currentQuestions sample_started)
        !! Z.to_nat (currentQuestionIndex sample_started)
        = Some question
      ∧ 0 ≤ Z.of_nat 1 < Z.of_nat (length (o question))
      ∧ dispatch (ClickOption 1) sample_started
        = handleOptionClick 1 (Z.of_nat 1) (a question) sample_started.
Proof. apply click_passes_existing_option, sample_started_reachable. Defined.

(** ** Starting and restarting *)

(** C3. After [startQuiz()], run in any state - the first start or a restart
    over a session with answers and a score -, the current array holds a
    permutation of the bank, as many elements as the bank, the index is [0],
    no answer is recorded and the score is [0]. *)
Theorem startQuiz_resets (st : State) :
  let bank := contents st (allQuestions st) in
  let st' := startQuiz st in
  contents st' (currentQuestions st') ≡ₚ bank
  ∧ length (contents st' (currentQuestions st')) = length bank
  ∧ currentQuestionIndex st' = 0
  ∧ answeredQuestions st' = ∅
  ∧ score st' = 0.
Proof.
  intros bank st'. subst st'.
  destruct (startQuiz_eq st) as (p & _ & ->).
  match goal with |- context [loadQuestion 0 ?mid] =>
    destruct (loadQuestion_only_page 0 mid) as [p' ->] end.
  cbn. rewrite !contents_insert_eq.
  split_and!; try done.
  - apply shuffle_contents_Permutation.
  - apply shuffle_contents_length.
Qed.

(** A restart over the sample session: two answers and a score of [1]
    before, none after. *)
Example restart_sample_session :
  score sample_session = 1
  ∧ size (answeredQuestions sample_session) = 2%nat
  ∧ score (dispatch ClickShuffle sample_session) = 0
  ∧ answeredQuestions (dispatch ClickShuffle sample_session) = ∅
  ∧ currentQuestionIndex (dispatch ClickShuffle sample_session) = 0
  ∧ contents (dispatch ClickShuffle sample_session)
      (currentQuestions (dispatch ClickShuffle sample_session))
    = [Q1; Q2; Q0].
Proof. split_and!; by vm_compute. Qed.

(** C7, as stated, fails: with an empty bank [startQuiz] signals nothing and
    runs to its end.  It binds [currentQuestions] to a new, empty array,
    writes the score line and sets the bound of the jump input. *)
Lemma startQuiz_empty_bank_runs :
  contents sample_empty (allQuestions sample_empty) = []
  ∧ alerts (startQuiz sample_empty) = []
  ∧ currentQuestions (startQuiz sample_empty) ≠ currentQuestions sample_empty
  ∧ arrays (startQuiz sample_empty) !! currentQuestions (startQuiz sample_empty)
    = Some []
  ∧ scoreText (page (startQuiz sample_empty)) ≠ scoreText (page sample_empty)
  ∧ startQuiz sample_empty ≠ sample_empty.
Proof. split_and!; by vm_compute. Qed.

(** C7, amended.  With an empty bank [startQuiz] raises no alert and
    establishes the empty session: a current array without elements, index
    [0], score [0], no answers, [0] as the bound of the jump input; the
    bounds check of [loadQuestion] returns before the question and the
    option buttons are touched. *)
Theorem startQuiz_empty_bank (st : State) :
  contents st (allQuestions st) = [] →
  let st' := startQuiz st in
  alerts st' = alerts st
  ∧ contents st' (currentQuestions st') = []
  ∧ currentQuestionIndex st' = 0
  ∧ score st' = 0
  ∧ answeredQuestions st' = ∅
  ∧ jumpInput_max (page st') = 0
  ∧ questionText (page st') = questionText (page st)
  ∧ optionsContainer (page st') = optionsContainer (page st).
Proof.
  intros Hbank st'. subst st'.
  rewrite startQuiz_unfold, Hbank. cbn.
  rewrite loadQuestion_out_of_range.
  - by rewrite contents_insert_eq.
  - right. by rewrite contents_insert_eq.
Qed.

Lemma startQuiz_empty_bank_witness :
  let st' := startQuiz sample_empty in
  alerts st' = alerts sample_empty
  ∧ contents st' (currentQuestions st') = []
  ∧ currentQuestionIndex st' = 0
  ∧ score st' = 0
  ∧ answeredQuestions st' = ∅
  ∧ jumpInput_max (page st') = 0
  ∧ questionText (page st') = questionText (page sample_empty)
  ∧ optionsContainer (page st') = optionsContainer (page sample_empty).
Proof. apply startQuiz_empty_bank. reflexivity. Defined.

(** ** The array that is shuffled *)

(** C9, as stated, fails: [shuffleArray] works on the array it is given.
    After the call the caller's array holds its elements in another
    order. *)
Lemma shuffleArray_mutates_argument :
  contents sample_pair 1%positive = [Q0; Q1]
  ∧ contents (shuffleArray 1%positive sample_pair).2 1%positive = [Q1; Q0]
  ∧ contents (shuffleArray 1%positive sample_pair).2 1%positive
    ≠ contents sample_pair 1%positive.
Proof. split_and!; by vm_compute. Qed.

(** C9, amended.  [shuffleArray] rearranges the array it is given in place
    and returns that same array; it creates no array and touches no other
    one.  The copy is made by the caller. *)
Theorem shuffleArray_in_place (array : ref) (st : State) :
  let st' := (shuffleArray array st).2 in
  (shuffleArray array st).1 = array
  ∧ arrays st' !! array
    = Some (shuffle_contents (contents st array) (random st)).1
  ∧ (∀ r, r ≠ array → arrays st' !! r = arrays st !! r)
  ∧ (is_Some (arrays st !! array) → dom (arrays st') = dom (arrays st)).
Proof.
  unfold shuffleArray.
  destruct (shuffle_contents (contents st array) (random st)) as [l rng].
  cbn. split_and!.
  - done.
  - by rewrite lookup_insert_eq.
  - intros r Hr. by rewrite lookup_insert_ne.
  - intros Hin%elem_of_dom. rewrite dom_insert_L.
    apply subseteq_union_1_L. by apply singleton_subseteq_l.
Qed.

(** C10. [startQuiz] leaves the bank alone: [allQuestions] still names the
    same array and that array holds the same elements in the same order;
    what was shuffled is a new array, which becomes [currentQuestions]. *)
Theorem startQuiz_keeps_allQuestions (st : State) :
  is_Some (arrays st !! allQuestions st) →
  let st' := startQuiz st in
  allQuestions st' = allQuestions st
  ∧ arrays st' !! allQuestions st' = arrays st !! allQuestions st
  ∧ contents st' (allQuestions st') = contents st (allQuestions st)
  ∧ currentQuestions st' ≠ allQuestions st'
  ∧ arrays st !! currentQuestions st' = None.
Proof.
  intros Hall st'. subst st'.
  pose proof (fresh_ref_unused st _ Hall) as Hfresh.
  destruct (startQuiz_eq st) as (p & _ & ->).
  match goal with |- context [loadQuestion 0 ?mid] =>
    destruct (loadQuestion_only_page 0 mid) as [p' ->] end.
  unfold contents. cbn. rewrite !lookup_insert_ne by done.
  split_and!; try done.
  apply not_elem_of_dom, is_fresh.
Qed.

Lemma startQuiz_keeps_allQuestions_witness :
  let st' := startQuiz sample_session in
  allQuestions st' = allQuestions sample_session
  ∧ arrays st' !! allQuestions st' = arrays sample_session !! allQuestions sample_session
  ∧ contents st' (allQuestions st') = contents sample_session (allQuestions sample_session)
  ∧ currentQuestions st' ≠ allQuestions st'
  ∧ arrays sample_session !! currentQuestions st' = None.
Proof.
  apply startQuiz_keeps_allQuestions.
  exists [Q0; Q1; Q2]. by vm_compute.
Defined.

(** ** Navigation *)

(** C6. [nextQuestion] adds exactly one to the index, except at the last
    index, where it changes nothing; [prevQuestion] takes exactly one off,
    except at index [0], where it changes nothing.  At the boundary the
    state is left as it is, so no alert is raised, and the same holds for
    the clicks on the two buttons. *)
Theorem navigation_clamped (st : State) :
  let len := Z.of_nat (length (contents st (currentQuestions st))) in
  let idx := currentQuestionIndex st in
  (idx < len - 1 →
     currentQuestionIndex (nextQuestion st) = idx + 1
     ∧ alerts (nextQuestion st) = alerts st)
  ∧ (idx = len - 1 → nextQuestion st = st ∧ dispatch ClickNext st = st)
  ∧ (0 < idx →
     currentQuestionIndex (prevQuestion st) = idx - 1
     ∧ alerts (prevQuestion st) = alerts st)
  ∧ (idx = 0 → prevQuestion st = st ∧ dispatch ClickPrev st = st).
Proof.
  intros len idx. subst len idx. split_and!.
  - intros Hlt. unfold nextQuestion.
    destruct (Z.ltb_spec (currentQuestionIndex st)
                (Z.of_nat (length (contents st (currentQuestions st))) - 1));
      [|lia].
    match goal with |- context [loadQuestion ?i ?s] =>
      destruct (loadQuestion_only_page i s) as [p ->] end.
    done.
  - intros Hlast.
    assert (Hn : nextQuestion st = st).
    { unfold nextQuestion. rewrite Hlast. by rewrite Z.ltb_irrefl. }
    split; [done|]. cbn. rewrite Hn. by destruct (nextBtn_disabled _).
  - intros Hpos. unfold prevQuestion.
    destruct (Z.ltb_spec 0 (currentQuestionIndex st)); [|lia].
    match goal with |- context [loadQuestion ?i ?s] =>
      destruct (loadQuestion_only_page i s) as [p ->] end.
    done.
  - intros Hfirst.
    assert (Hp : prevQuestion st = st).
    { unfold prevQuestion. rewrite Hfirst. by rewrite Z.ltb_irrefl. }
    split; [done|]. cbn. rewrite Hp. by destruct (prevBtn_disabled _).
Qed.

Lemma navigation_clamped_witness :
  (currentQuestionIndex (nextQuestion sample_started) = 0 + 1
   ∧ alerts (nextQuestion sample_started) = alerts sample_started)
  ∧ (prevQuestion sample_started = sample_started
     ∧ dispatch ClickPrev sample_started = sample_started).
Proof.
  destruct (navigation_clamped sample_started) as (Hnext & _ & _ & Hfirst).
  split; [apply Hnext|apply Hfirst]; by vm_compute.
Defined.

(** Two steps forward and one back in the sample session of three
    questions; a third step forward is not taken. *)
Example navigation_sample :
  currentQuestionIndex (run [ClickNext; ClickNext; ClickPrev] sample_started) = 1
  ∧ currentQuestionIndex (run [ClickNext; ClickNext; ClickNext] sample_started) = 2
  ∧ run [ClickPrev] sample_started = sample_started.
Proof. split_and!; by vm_compute. Qed.

(** ** Numbers as text

    [parseInt] reads back the decimal numeral of every integer, so the
    number read from the jump input ranges over all integers. *)

Lemma digit_char_value (d : N) :
  (d < 10)%N → digit_value 10 (pretty_N_char d) = Some (Z.of_N d).
Proof.
  intros Hd.
  assert (d = 0 ∨ d = 1 ∨ d = 2 ∨ d = 3 ∨ d = 4 ∨ d = 5 ∨ d = 6 ∨ d = 7
          ∨ d = 8 ∨ d = 9)%N as Hcases by lia.
  repeat destruct Hcases as [->|Hcases]; try done. by subst.
Qed.

Lemma pretty_N_go_digits (x : N) :
  ∃ ds k, (0 < x → ds ≠ [])%N
    ∧ (∀ acc, foldl (λ acc d, acc * 10 + d) acc ds
              = acc * 10 ^ k + Z.of_N x)
    ∧ 0 ≤ k
    ∧ ∀ s, digits_prefix 10 (pretty_N_go x s) = (ds ++ digits_prefix 10 s)%list.
Proof.
  induction (N.lt_wf_0 x) as [x _ IH].
  destruct (decide (0 < x)%N) as [Hpos|Hzero].
  - destruct (IH (x `div` 10)%N) as (ds & k & _ & Hval & Hk & Hds).
    { by apply N.div_lt. }
    exists (ds ++ [Z.of_N (x `mod` 10)])%list, (k + 1). split_and!.
    + intros _. by destruct ds.
    + intros acc. rewrite foldl_app, Hval. cbn.
      rewrite Z.pow_add_r by lia.
      rewrite (N.div_mod x 10) at 3 by done. lia.
    + lia.
    + intros s. rewrite pretty_N_go_step by done. rewrite Hds. cbn.
      rewrite digit_char_value by (by apply N.mod_lt).
      by rewrite <- app_assoc.
  - assert (x = 0%N) as -> by lia. exists [], 0. split_and!; try done.
    intros acc. cbn. lia.
Qed.

Lemma digit_first (c : ascii) (d : Z) (rest : string) :
  digit_value 10 c = Some d →
  trim_start (String c rest) = String c rest
  ∧ strip_sign (String c rest) = (1, String c rest).
Proof.
  destruct c as [[] [] [] [] [] [] [] []]; intros Hd;
    try discriminate Hd; (split; [|done]);
    by destruct rest as [|c2 [|c3 s3]].
Qed.

Lemma no_hex_prefix (s : string) :
  foldl (λ acc d, acc * 10 + d) 0 (digits_prefix 10 s) ≠ 0 →
  strip_hex_prefix s = (10, s).
Proof.
  destruct s as [|c rest]; [done|].
  destruct c as [[] [] [] [] [] [] [] []]; try done.
  destruct rest as [|c2 rest]; [done|].
  destruct c2 as [[] [] [] [] [] [] [] []]; done.
Qed.

Lemma parseInt_pretty_pos (x : positive) :
  trim_start (pretty x) = pretty x
  ∧ strip_sign (pretty x) = (1, pretty x)
  ∧ strip_hex_prefix (pretty x) = (10, pretty x)
  ∧ parse_digits 10 (pretty x) = Some (Z.pos x).
Proof.
  unfold pretty, pretty_positive, pretty, pretty_N.
  rewrite decide_False by done.
  destruct (pretty_N_go_digits (N.pos x)) as (ds & k & Hne & Hval & _ & Hds).
  specialize (Hds ""). cbn [digits_prefix] in Hds. rewrite app_nil_r in Hds.
  specialize (Hne eq_refl). specialize (Hval 0). cbn in Hval.
  assert (Hparse : parse_digits 10 (pretty_N_go (N.pos x) "") = Some (Z.pos x)).
  { unfold parse_digits. rewrite Hds. destruct ds; [done|]. by rewrite Hval. }
  destruct (pretty_N_go (N.pos x) "") as [|c rest] eqn:Hs;
    [by rewrite <- Hds in Hne|].
  assert (∃ d, digit_value 10 c = Some d) as [d Hd].
  { cbn in Hds. destruct (digit_value 10 c); [by eexists|by rewrite <- Hds in Hne]. }
  destruct (digit_first c d rest Hd) as [Htrim Hsign].
  split_and!; try done.
  apply no_hex_prefix. rewrite Hds, Hval. done.
Qed.

Lemma parseInt_Number_toString (n : Z) : parseInt (Number_toString n) = Some n.
Proof.
  destruct n as [|x|x]; [done| |].
  - change (Number_toString (Z.pos x)) with (pretty x).
    destruct (parseInt_pretty_pos x) as (Htrim & Hsign & Hhex & Hdigits).
    unfold parseInt. by rewrite Htrim, Hsign, Hhex, Hdigits.
  - change (Number_toString (Z.neg x)) with (String "-" (pretty x)).
    destruct (parseInt_pretty_pos x) as (Htrim & Hsign & Hhex & Hdigits).
    unfold parseInt.
    assert (trim_start (String "-" (pretty x)) = String "-" (pretty x)) as ->.
    { by destruct (pretty x) as [|c2 [|c3 s3]]. }
    cbn [strip_sign]. by rewrite Hhex, Hdigits.
Qed.

(** ** Jumping *)

(** The two outcomes of [jumpToQuestion]. *)
Lemma jumpToQuestion_ok (st : State) (n : Z) :
  parseInt (jumpInput_value (page st)) = Some n →
  1 ≤ n ≤ Z.of_nat (length (contents st (currentQuestions st))) →
  ∃ p, jumpToQuestion st = set_page p (set_currentQuestionIndex (n - 1) st).
Proof.
  intros Hn [Hlo Hhi]. unfold jumpToQuestion.
  rewrite Hn. cbn [num_geb num_leb default].
  destruct (Z.leb_spec 1 n); [|lia].
  destruct (Z.leb_spec n (Z.of_nat (length (contents st (currentQuestions st)))));
    [|lia].
  cbn [andb].
  match goal with |- context [loadQuestion ?i ?s] =>
    destruct (loadQuestion_only_page i s) as [p ->] end.
  by eexists.
Qed.

Lemma jumpToQuestion_refused (st : State) :
  let len := Z.of_nat (length (contents st (currentQuestions st))) in
  (∀ n, parseInt (jumpInput_value (page st)) = Some n → ¬ 1 ≤ n ≤ len) →
  jumpToQuestion st = alert (jump_alert_text len) st.
Proof.
  intros len Hout. unfold jumpToQuestion. fold len.
  destruct (parseInt _) as [n|]; cbn [num_geb num_leb andb]; [|done].
  specialize (Hout n eq_refl).
  destruct (Z.leb_spec 1 n); [|done]. destruct (Z.leb_spec n len); [|done].
  lia.
Qed.

(** C4, as stated, fails for text that is not an integer numeral: the
    script hands the text to [parseInt], which reads a leading numeral and
    ignores what follows.  With three questions, [2.7] and [2abc] jump to
    the second question and [1e9] to the first, and no alert is raised. *)
Lemma jump_accepts_non_integer :
  length (contents sample_started (currentQuestions sample_started)) = 3%nat
  ∧ currentQuestionIndex sample_started = 0
  ∧ currentQuestionIndex (run [TypeJumpInput "2.7"; ClickJump] sample_started) = 1
  ∧ alerts (run [TypeJumpInput "2.7"; ClickJump] sample_started) = []
  ∧ currentQuestionIndex (run [TypeJumpInput "2abc"; ClickJump] sample_started) = 1
  ∧ alerts (run [TypeJumpInput "2abc"; ClickJump] sample_started) = []
  ∧ currentQuestionIndex
      (run [ClickNext; TypeJumpInput "1e9"; ClickJump] sample_started) = 0
  ∧ alerts (run [ClickNext; TypeJumpInput "1e9"; ClickJump] sample_started) = [].
Proof. split_and!; by vm_compute. Qed.

(** C4, amended.  [jumpToQuestion] takes for [n] what [parseInt] reads in
    the jump input: the leading integer numeral of the text, whatever
    follows it, and no number when the text does not start with one.  It
    succeeds, raising no alert, exactly when [1 <= n <= length]; it then
    sets the index to [n - 1] and touches neither the arrays, the score nor
    the answers.  Otherwise - [n] out of range, or no number read - the
    state stays as it is but for one alert, whose text names the range from
    [1] to the length. *)
Theorem jumpToQuestion_range (st : State) :
  let len := Z.of_nat (length (contents st (currentQuestions st))) in
  let num := parseInt (jumpInput_value (page st)) in
  let st' := jumpToQuestion st in
  ((∃ n, num = Some n ∧ 1 ≤ n ≤ len) ↔ alerts st' = alerts st)
  ∧ (∀ n, num = Some n → 1 ≤ n ≤ len →
       currentQuestionIndex st' = n - 1
       ∧ arrays st' = arrays st
       ∧ currentQuestions st' = currentQuestions st
       ∧ score st' = score st
       ∧ answeredQuestions st' = answeredQuestions st)
  ∧ ((∀ n, num = Some n → ¬ 1 ≤ n ≤ len) →
       st' = alert (jump_alert_text len) st
       ∧ currentQuestionIndex st' = currentQuestionIndex st
       ∧ page st' = page st
       ∧ alerts st'
         = (alerts st ++ ["الرجاء إدخال رقم بين 1 و " +:+ Number_toString len])%list).
Proof.
  intros len num st'. subst st'. split_and!.
  - split.
    + intros (n & Hn & Hrange).
      by destruct (jumpToQuestion_ok st n Hn Hrange) as [p ->].
    + intros Halerts.
      assert (Hcases : (∃ n, num = Some n ∧ 1 ≤ n ≤ len)
                       ∨ (∀ n, num = Some n → ¬ 1 ≤ n ≤ len)).
      { destruct num as [n|]; [|by right].
        destruct (decide (1 ≤ n ≤ len)); [left; by exists n|].
        right. by intros ? [= <-]. }
      destruct Hcases as [|Hout]; [done|].
      rewrite (jumpToQuestion_refused st Hout) in Halerts.
      cbn in Halerts. apply (f_equal length) in Halerts.
      rewrite length_app in Halerts. cbn in Halerts. lia.
  - intros n Hn Hrange.
    by destruct (jumpToQuestion_ok st n Hn Hrange) as [p ->].
  - intros Hout. by rewrite (jumpToQuestion_refused st Hout).
Qed.

Lemma jumpToQuestion_range_witness :
  let st := set_jumpInput_value "2" sample_started in
  currentQuestionIndex (jumpToQuestion st) = 2 - 1
  ∧ arrays (jumpToQuestion st) = arrays st
  ∧ currentQuestions (jumpToQuestion st) = currentQuestions st
  ∧ score (jumpToQuestion st) = score st
  ∧ answeredQuestions (jumpToQuestion st) = answeredQuestions st.
Proof.
  intros st.
  destruct (jumpToQuestion_range st) as (_ & Hok & _).
  apply (Hok 2); [reflexivity|]. vm_compute. by split; intros [=].
Defined.

(** X19. Every integer can be the number read: typed as its decimal
    numeral, [n] is accepted when it lies between [1] and the length and
    refused otherwise. *)
Lemma jump_to_typed_number (st : State) (n : Z) :
  let st1 := set_jumpInput_value (Number_toString n) st in
  let len := Z.of_nat (length (contents st (currentQuestions st))) in
  (1 ≤ n ≤ len →
     currentQuestionIndex (jumpToQuestion st1) = n - 1
     ∧ alerts (jumpToQuestion st1) = alerts st)
  ∧ (¬ 1 ≤ n ≤ len →
     jumpToQuestion st1 = alert (jump_alert_text len) st1).
Proof.
  intros st1 len.
  assert (Hn : parseInt (jumpInput_value (page st1)) = Some n)
    by apply parseInt_Number_toString.
  split.
  - intros Hrange. by destruct (jumpToQuestion_ok st1 n Hn Hrange) as [p ->].
  - intros Hout. apply (jumpToQuestion_refused st1).
    intros n' Hn'. rewrite Hn in Hn'. by injection Hn' as <-.
Qed.

(** The jump of the specification's scenario: [5] with three questions is
    refused. *)
Example jump_sample :
  let st := run [TypeJumpInput "5"; ClickJump] sample_started in
  currentQuestionIndex st = 0
  ∧ alerts st = ["الرجاء إدخال رقم بين 1 و 3"]
  ∧ currentQuestionIndex (run [TypeJumpInput "3"; ClickJump] sample_started) = 2
  ∧ alerts (run [TypeJumpInput "3"; KeyupJumpInput "Enter"] sample_started) = []
  ∧ alerts (run [TypeJumpInput "two"; ClickJump] sample_started)
    = ["الرجاء إدخال رقم بين 1 و 3"]
  ∧ currentQuestionIndex (run [TypeJumpInput "2.7"; ClickJump] sample_started) = 1.
Proof. split_and!; by vm_compute. Qed.


(** * Further properties of the script *)

(** ** Loading a question *)

(** [loadQuestion] at a position of the current array, written out. *)
Lemma loadQuestion_valid (index : Z) (st : State) (question : Question) :
  0 ≤ index →
  contents st (currentQuestions st) !! Z.to_nat index = Some question →
  let len := Z.of_nat (length (contents st (currentQuestions st))) in
  let questionData := answeredQuestions st !! index in
  loadQuestion index st
  = set_page
      (mkPage (progress_line index len) (scoreText (page st)) (q question)
         (imap (make_button question questionData) (o question))
         match questionData with
         | Some data => feedback_line (selected data =? correct data)
         | None => nbsp
         end
         match questionData with
         | Some data => [feedback_class (selected data =? correct data)]
         | None => []
         end
         (index =? 0) (index =? len - 1)
         (jumpInput_value (page st)) (jumpInput_max (page st)))
      st.
Proof.
  intros Hlo Hq len questionData. unfold loadQuestion.
  pose proof (lookup_lt_Some _ _ _ Hq) as Hlt.
  destruct (Z.ltb_spec index 0); [lia|].
  destruct (Z.leb_spec (Z.of_nat (length (contents st (currentQuestions st)))) index);
    [lia|].
  cbn [orb]. rewrite Hq. fold questionData.
  destruct questionData as [data|]; [|done].
  by destruct (selected data =? correct data).
Qed.

Lemma loadQuestion_shown (st : State) (question : Question) :
  0 ≤ currentQuestionIndex st →
  contents st (currentQuestions st) !! Z.to_nat (currentQuestionIndex st)
    = Some question →
  scoreText (page st) = score_line (score st) →
  jumpInput_max (page st)
    = Z.of_nat (length (contents st (currentQuestions st))) →
  shown (loadQuestion (currentQuestionIndex st) st).
Proof.
  intros Hlo Hq Hscore Hmax.
  rewrite (loadQuestion_valid _ _ _ Hlo Hq).
  unfold shown, contents in *. cbn. split_and!; try done.
  intros question' Hq'. rewrite Hq in Hq'. injection Hq' as <-.
  split_and!; try done.
  - by rewrite length_imap.
  - intros k btn Hk. rewrite list_lookup_imap in Hk.
    destruct (o question !! k) as [option|] eqn:Ho; [|done].
    injection Hk as <-.
    destruct (answeredQuestions st !! currentQuestionIndex st); by cbn.
  - by destruct (answeredQuestions st !! currentQuestionIndex st).
Qed.

(** ** The page follows the variables *)

Lemma answers_ok_frame (st st' : State) :
  answeredQuestions st' = answeredQuestions st →
  arrays st' = arrays st →
  currentQuestions st' = currentQuestions st →
  answers_ok st → answers_ok st'.
Proof.
  intros Hans Harr Hcur Hok. unfold answers_ok, contents in *.
  by rewrite Hans, Harr, Hcur.
Qed.

Lemma startQuiz_shown (st : State) :
  shown (startQuiz st) ∧ answers_ok (startQuiz st).
Proof.
  rewrite startQuiz_unfold. cbn zeta.
  set (bank := contents st (allQuestions st)).
  set (l := fresh (dom (arrays st))).
  set (sh := shuffle_contents bank (random st)).
  set (mid := mkState _ _ _ _ _ _ _ _ _).
  assert (Hcur : contents mid (currentQuestions mid) = sh.1)
    by apply contents_insert_eq.
  split.
  - destruct (contents mid (currentQuestions mid) !! Z.to_nat 0)
      as [question|] eqn:Hq.
    + apply (loadQuestion_shown mid question); try done.
      cbn. by rewrite <- Hcur.
    + rewrite loadQuestion_out_of_range.
      * unfold shown. rewrite Hcur in *. split_and!; try done.
        intros question Hquestion. cbn in Hquestion. by rewrite Hq in Hquestion.
      * right. apply lookup_ge_None in Hq.
        change (Z.to_nat 0) with 0%nat in Hq. lia.
  - destruct (loadQuestion_only_page 0 mid) as [p ->].
    intros k data Hk. cbn in Hk. by rewrite lookup_empty in Hk.
Qed.

Lemma goto_shown (j : Z) (st : State) :
  shown st → answers_ok st →
  0 ≤ j < Z.of_nat (length (contents st (currentQuestions st))) →
  shown (loadQuestion j (set_currentQuestionIndex j st))
  ∧ answers_ok (loadQuestion j (set_currentQuestionIndex j st)).
Proof.
  intros (Hscore & Hmax & _) Hok Hj.
  set (st' := set_currentQuestionIndex j st).
  destruct (lookup_lt_is_Some_2 (contents st (currentQuestions st))
              (Z.to_nat j)) as [question Hq]; [lia|].
  split.
  - apply (loadQuestion_shown st' question); try done. cbn. lia.
  - destruct (loadQuestion_only_page j st') as [p ->].
    by apply (answers_ok_frame st).
Qed.

Lemma classList_add_fresh (token : string) (classes : list string) :
  token ∉ classes → classList_add token classes = (classes ++ [token])%list.
Proof. intros Hnot. unfold classList_add. by rewrite bool_decide_eq_false_2. Qed.

(** The position a button records in [dataset.index] is read back by
    [parseInt]. *)
Lemma dataset_index_read (k : nat) (c : Z) :
  num_eqb (parseInt (Number_toString (Z.of_nat k))) c = (Z.of_nat k =? c).
Proof. by rewrite parseInt_Number_toString. Qed.

Lemma handleOptionClick_shown (st : State) (k : nat) (btn : Button) (i c : Z) :
  inv st → shown st → answers_ok st →
  optionsContainer (page st) !! k = Some btn →
  btn_disabled btn = false →
  btn_click btn = Some (i, c) →
  shown (handleOptionClick k i c st) ∧ answers_ok (handleOptionClick k i c st).
Proof.
  intros Hinv Hshown Hok Hk Hen Hclick.
  pose proof (enabled_button_unanswered st k btn Hinv Hk Hen) as Hnone.
  destruct Hinv as [(_ & Hidx & _) [_ Hlisten]].
  destruct (Hlisten k btn i c Hk Hclick) as (question & Hq & -> & -> & Hlt).
  destruct Hshown as (Hscore & Hmax & Hquestion).
  destruct (Hquestion question Hq)
    as (Htext & Hprogress & Hprev & Hnext & Hlen & Hbtns & Hfeedback).
  rewrite Hnone in Hfeedback. destruct Hfeedback as [_ Hfc].
  split.
  - unfold handleOptionClick, shown, contents in *.
    destruct (Z.of_nat k =? a question) eqn:Hright; cbn;
      rewrite lookup_insert_eq, Hfc; cbn; rewrite Hright;
      (split_and!; try done);
      intros question' Hq'; rewrite Hq in Hq'; injection Hq' as <-;
      (split_and!; try done);
      try (by rewrite length_fmap, length_alter);
      intros k' btn' Hk';
      rewrite list_lookup_fmap, list_lookup_alter in Hk';
      (case_decide; subst;
       (destruct (optionsContainer (page st) !! k') as [b|] eqn:Hb; [|done]);
       destruct (Hbtns k' b Hb) as (Ho & Hdata & _);
       cbn in Hk'; injection Hk' as <-;
       by destruct (num_eqb _ _)).
  - intros k' data Hk'.
    destruct (handleOptionClick_eq k (Z.of_nat k) (a question) st)
      as (p & Heq & _).
    rewrite Heq in Hk' |- *. unfold contents. cbn in *.
    destruct (decide (k' = currentQuestionIndex st)) as [->|Hne].
    + rewrite lookup_insert_eq in Hk'. injection Hk' as <-. cbn.
      split; [lia|]. exists question. split_and!; try done; lia.
    + rewrite lookup_insert_ne in Hk' by done. by apply Hok.
Qed.

Lemma set_jumpInput_value_shown (value : string) (st : State) :
  shown st ∧ answers_ok st →
  shown (set_jumpInput_value value st)
  ∧ answers_ok (set_jumpInput_value value st).
Proof. by intros [Hshown Hok]. Qed.

Lemma alert_shown (message : string) (st : State) :
  shown st ∧ answers_ok st →
  shown (alert message st) ∧ answers_ok (alert message st).
Proof. by intros [Hshown Hok]. Qed.

Lemma jumpToQuestion_shown (st : State) :
  shown st ∧ answers_ok st →
  shown (jumpToQuestion st) ∧ answers_ok (jumpToQuestion st).
Proof.
  intros [Hshown Hok]. unfold jumpToQuestion.
  destruct (parseInt _) as [n|]; cbn [num_geb num_leb andb];
    [|by apply alert_shown].
  destruct (Z.leb_spec 1 n); [|by apply alert_shown].
  destruct (Z.leb_spec n (Z.of_nat (length (contents st (currentQuestions st)))));
    [|by apply alert_shown].
  apply set_jumpInput_value_shown. cbn [default andb].
  apply (goto_shown (n - 1) st); [done..|lia].
Qed.

Lemma dispatch_shown (e : Event) (st : State) :
  inv st → shown st ∧ answers_ok st →
  shown (dispatch e st) ∧ answers_ok (dispatch e st).
Proof.
  intros Hinv [Hshown Hok].
  pose proof Hinv as [(_ & Hidx & _) _].
  destruct e as [k| | | | |key|value]; cbn.
  - destruct (optionsContainer (page st) !! k) as [btn|] eqn:Hk; [|done].
    destruct (btn_disabled btn) eqn:Hen; [done|].
    destruct (btn_click btn) as [[i c]|] eqn:Hclick; [|done].
    by apply (handleOptionClick_shown st k btn).
  - destruct (nextBtn_disabled _); [done|]. unfold nextQuestion.
    destruct (Z.ltb_spec (currentQuestionIndex st)
                (Z.of_nat (length (contents st (currentQuestions st))) - 1));
      [|done].
    apply goto_shown; [done..|lia].
  - destruct (prevBtn_disabled _); [done|]. unfold prevQuestion.
    destruct (Z.ltb_spec 0 (currentQuestionIndex st)); [|done].
    apply goto_shown; [done..|lia].
  - apply startQuiz_shown.
  - by apply jumpToQuestion_shown.
  - case_bool_decide; [|done]. by apply jumpToQuestion_shown.
  - by apply set_jumpInput_value_shown.
Qed.

Lemma reachable_shown (st : State) : reachable st → shown st ∧ answers_ok st.
Proof.
  induction 1 as [st Hdecl|e st Hreach IH].
  - apply startQuiz_shown.
  - apply dispatch_shown; [by apply reachable_inv|done].
Qed.

(** ** The shuffle and the random source *)

Lemma shuffle_loop_draws {A} (i : nat) (l : list A) (rng : RandomSource) (k : nat) :
  (shuffle_loop i l rng).2 k = rng (i + k)%nat.
Proof.
  revert l rng. induction i as [|i IH]; intros l rng; [done|].
  cbn [shuffle_loop Math_random]. by rewrite IH.
Qed.

(** X1. [shuffleArray] calls [Math.random] once per pass of its loop: for an
    array of [n] elements the draws that follow the call are the ones from
    position [n - 1] on, and none is used when the array has fewer than two
    elements. *)
Theorem shuffleArray_draws (array : ref) (st : State) (k : nat) :
  random (shuffleArray array st).2 k
  = random st (length (contents st array) - 1 + k)%nat.
Proof.
  unfold shuffleArray.
  destruct (shuffle_contents (contents st array) (random st)) as [l rng] eqn:Hsh.
  cbn. change rng with (l, rng).2. rewrite <- Hsh.
  unfold shuffle_contents. rewrite shuffle_loop_draws. f_equal. lia.
Qed.

(** X2. On an allocated array with fewer than two elements [shuffleArray]
    changes nothing at all: the store and the random source are as
    before. *)
Theorem shuffleArray_short (array : ref) (st : State) :
  is_Some (arrays st !! array) →
  (length (contents st array) ≤ 1)%nat →
  (shuffleArray array st).2 = st.
Proof.
  intros [l Hl] Hlen. unfold shuffleArray, shuffle_contents, contents in *.
  rewrite Hl in *. simpl in Hlen. simpl from_option.
  replace (Z.to_nat (Z.of_nat (length l) - 1)) with 0%nat by lia.
  cbn [shuffle_loop snd]. unfold set_random, set_arrays.
  rewrite insert_id by done. by destruct st.
Qed.

Lemma shuffleArray_short_witness :
  (shuffleArray 1%positive sample_single).2 = sample_single
  ∧ (shuffleArray 2%positive sample_single).2 = sample_single.
Proof.
  split; apply shuffleArray_short; try (by eexists); vm_compute; lia.
Defined.

(** ** What an event leaves alone *)

(** Every event but an answering click and a restart rewrites at most the
    index, the page and the alerts. *)
Lemma navigation_vars (e : Event) (st : State) :
  (∀ k, e ≠ ClickOption k) → e ≠ ClickShuffle →
  ∃ index p messages,
    dispatch e st
    = mkState (arrays st) (allQuestions st) (currentQuestions st) index
        (score st) (answeredQuestions st) p messages (random st).
Proof.
  intros Hopt Hshuffle.
  assert (Hid : ∃ index p messages,
            st = mkState (arrays st) (allQuestions st) (currentQuestions st)
                   index (score st) (answeredQuestions st) p messages
                   (random st)).
  { exists (currentQuestionIndex st), (page st), (alerts st). by destruct st. }
  assert (Hjump : ∃ index p messages,
            jumpToQuestion st
            = mkState (arrays st) (allQuestions st) (currentQuestions st)
                index (score st) (answeredQuestions st) p messages
                (random st)).
  { unfold jumpToQuestion. destruct (_ && _); [|by eexists _, _, _].
    match goal with |- context [loadQuestion ?i ?s] =>
      destruct (loadQuestion_only_page i s) as [p ->] end.
    by eexists _, _, _. }
  destruct e as [k| | | | |key|value]; cbn.
  - by destruct (Hopt k).
  - destruct (nextBtn_disabled _); [done|]. unfold nextQuestion.
    destruct (_ <? _); [|done].
    match goal with |- context [loadQuestion ?i ?s] =>
      destruct (loadQuestion_only_page i s) as [p ->] end.
    by eexists _, _, _.
  - destruct (prevBtn_disabled _); [done|]. unfold prevQuestion.
    destruct (_ <? _); [|done].
    match goal with |- context [loadQuestion ?i ?s] =>
      destruct (loadQuestion_only_page i s) as [p ->] end.
    by eexists _, _, _.
  - done.
  - done.
  - by case_bool_decide.
  - by eexists _, _, _.
Qed.

Lemma classic_event (e : Event) :
  (∃ k, e = ClickOption k) ∨ e = ClickShuffle
  ∨ ((∀ k, e ≠ ClickOption k) ∧ e ≠ ClickShuffle).
Proof. destruct e; eauto. Qed.

(** X3. Between restarts the order of the questions is fixed: no event
    other than a click on the restart button changes the store of arrays,
    the array [currentQuestions] names, or the random source. *)
Theorem order_fixed_until_restart (e : Event) (st : State) :
  e ≠ ClickShuffle →
  arrays (dispatch e st) = arrays st
  ∧ currentQuestions (dispatch e st) = currentQuestions st
  ∧ allQuestions (dispatch e st) = allQuestions st
  ∧ random (dispatch e st) = random st.
Proof.
  intros Hshuffle.
  destruct (classic_event e) as [[k ->]|[->|[Hopt Hne]]].
  - cbn. destruct (optionsContainer (page st) !! k) as [btn|]; [|done].
    destruct (btn_disabled btn); [done|].
    destruct (btn_click btn) as [[i c]|]; [|done].
    by destruct (handleOptionClick_eq k i c st) as (p & -> & _).
  - done.
  - by destruct (navigation_vars e st Hopt Hne) as (i & p & al & ->).
Qed.

Lemma order_fixed_until_restart_witness :
  arrays (dispatch (ClickOption 1) sample_started) = arrays sample_started
  ∧ currentQuestions (dispatch (ClickOption 1) sample_started)
    = currentQuestions sample_started
  ∧ allQuestions (dispatch (ClickOption 1) sample_started)
    = allQuestions sample_started
  ∧ random (dispatch (ClickOption 1) sample_started) = random sample_started.
Proof. by apply order_fixed_until_restart. Defined.

(** X4. Moving about and typing never touch the result: every event other
    than a click on an option or on the restart button leaves [score] and
    [answeredQuestions] as they are. *)
Theorem navigation_keeps_answers (e : Event) (st : State) :
  (∀ k, e ≠ ClickOption k) → e ≠ ClickShuffle →
  score (dispatch e st) = score st
  ∧ answeredQuestions (dispatch e st) = answeredQuestions st.
Proof.
  intros Hopt Hshuffle.
  by destruct (navigation_vars e st Hopt Hshuffle) as (i & p & al & ->).
Qed.

Lemma navigation_keeps_answers_witness :
  score (dispatch ClickNext sample_answered) = score sample_answered
  ∧ answeredQuestions (dispatch ClickNext sample_answered)
    = answeredQuestions sample_answered.
Proof. by apply navigation_keeps_answers. Defined.

(** X5. The only alert of the script is the one of a refused jump: an event
    either raises no alert, or it is a jump request and the one alert it
    raises is the range message for the current number of questions. *)
Theorem alerts_only_from_jump (e : Event) (st : State) :
  alerts (dispatch e st) = alerts st
  ∨ ((e = ClickJump ∨ e = KeyupJumpInput "Enter")
     ∧ alerts (dispatch e st)
       = (alerts st
          ++ [jump_alert_text
                (Z.of_nat (length (contents st (currentQuestions st))))])%list).
Proof.
  assert (Hjump : alerts (jumpToQuestion st) = alerts st
            ∨ alerts (jumpToQuestion st)
              = (alerts st
                 ++ [jump_alert_text
                       (Z.of_nat (length (contents st (currentQuestions st))))])%list).
  { unfold jumpToQuestion. destruct (_ && _); [left|by right].
    match goal with |- context [loadQuestion ?i ?s] =>
      destruct (loadQuestion_only_page i s) as [p ->] end.
    done. }
  destruct e as [k| | | | |key|value]; unfold dispatch.
  - left. destruct (optionsContainer (page st) !! k) as [btn|]; [|done].
    destruct (btn_disabled btn); [done|].
    destruct (btn_click btn) as [[i c]|]; [|done].
    by destruct (handleOptionClick_eq k i c st) as (p & -> & _).
  - left. unfold nextQuestion. destruct (nextBtn_disabled _); [done|].
    destruct (_ <? _); [|done].
    by match goal with |- context [loadQuestion ?i ?s] =>
      destruct (loadQuestion_only_page i s) as [p' ->] end.
  - left. unfold prevQuestion. destruct (prevBtn_disabled _); [done|].
    destruct (_ <? _); [|done].
    by match goal with |- context [loadQuestion ?i ?s] =>
      destruct (loadQuestion_only_page i s) as [p' ->] end.
  - left. rewrite startQuiz_unfold.
    by match goal with |- context [loadQuestion ?i ?s] =>
      destruct (loadQuestion_only_page i s) as [p' ->] end.
  - destruct Hjump as [Hsame|Hone]; [by left|right]. by split; [left|].
  - case_bool_decide as Hkey; [|by left]. subst key.
    destruct Hjump as [Hsame|Hone]; [by left|right]. by split; [right|].
  - by left.
Qed.

(** ** The bank, the order and the index *)

Lemma dispatch_keeps_bank (e : Event) (st : State) :
  is_Some (arrays st !! allQuestions st) →
  allQuestions (dispatch e st) = allQuestions st
  ∧ arrays (dispatch e st) !! allQuestions st = arrays st !! allQuestions st.
Proof.
  intros Hall. destruct (classic_event e) as [[k ->]|[->|[Hopt Hne]]].
  - cbn. destruct (optionsContainer (page st) !! k) as [btn|]; [|done].
    destruct (btn_disabled btn); [done|].
    destruct (btn_click btn) as [[i c]|]; [|done].
    by destruct (handleOptionClick_eq k i c st) as (p & -> & _).
  - unfold dispatch. pose proof (fresh_ref_unused st _ Hall) as Hfresh.
    destruct (startQuiz_eq st) as (p & _ & ->).
    match goal with |- context [loadQuestion 0 ?mid] =>
      destruct (loadQuestion_only_page 0 mid) as [p' ->] end.
    cbn. by rewrite !lookup_insert_ne.
  - by destruct (navigation_vars e st Hopt Hne) as (i & p & al & ->).
Qed.

(** X6. The bank of [questions.js] is never modified: whatever the user
    does after the page has loaded - answering, moving, jumping, restarting
    any number of times - [allQuestions] names the same array and that
    array holds the same questions in the same order. *)
Theorem bank_never_changes (events : list Event) (st : State) :
  reachable st →
  allQuestions (run events st) = allQuestions st
  ∧ contents (run events st) (allQuestions (run events st))
    = contents st (allQuestions st).
Proof.
  revert st. induction events as [|e events IH]; intros st Hst; [done|].
  destruct (reachable_inv st Hst) as [(_ & _ & Hall & _) _].
  destruct (dispatch_keeps_bank e st Hall) as [Hsame Hbank].
  destruct (IH (dispatch e st)) as [IH1 IH2]; [by constructor|].
  change (run (e :: events) st) with (run events (dispatch e st)).
  rewrite IH2, IH1, Hsame. split; [done|].
  unfold contents. by rewrite Hbank.
Qed.

Lemma bank_never_changes_witness :
  let events := [ClickOption 0; ClickShuffle; ClickNext; ClickShuffle] in
  allQuestions (run events sample_started) = allQuestions sample_started
  ∧ contents (run events sample_started)
      (allQuestions (run events sample_started))
    = contents sample_started (allQuestions sample_started).
Proof. apply bank_never_changes, sample_started_reachable. Defined.

(** X7. At every moment the questions shown are the bank in some order:
    in every reachable state [currentQuestions] is an array of its own that
    holds a permutation of the bank. *)
Theorem order_is_permutation_of_bank (st : State) :
  reachable st →
  currentQuestions st ≠ allQuestions st
  ∧ contents st (currentQuestions st) ≡ₚ contents st (allQuestions st)
  ∧ length (contents st (currentQuestions st))
    = length (contents st (allQuestions st)).
Proof.
  intros Hst. destruct (reachable_inv st Hst) as [(_ & _ & _ & Hne & Hperm) _].
  split_and!; try done. by apply Permutation_length.
Qed.

Lemma order_is_permutation_of_bank_witness :
  currentQuestions sample_session ≠ allQuestions sample_session
  ∧ contents sample_session (currentQuestions sample_session)
    ≡ₚ contents sample_session (allQuestions sample_session)
  ∧ length (contents sample_session (currentQuestions sample_session))
    = length (contents sample_session (allQuestions sample_session)).
Proof. apply order_is_permutation_of_bank, sample_session_reachable. Defined.

(** X8. The index never leaves the array: in every reachable state
    [currentQuestionIndex] is [0] when there is no question and a position
    of [currentQuestions] otherwise, so [currentQuestions[index]] exists
    whenever the bank is not empty. *)
Theorem index_in_range (st : State) :
  reachable st →
  let len := Z.of_nat (length (contents st (currentQuestions st))) in
  0 ≤ currentQuestionIndex st
  ∧ (len = 0 → currentQuestionIndex st = 0)
  ∧ (0 < len →
     currentQuestionIndex st < len
     ∧ is_Some (contents st (currentQuestions st)
                  !! Z.to_nat (currentQuestionIndex st))).
Proof.
  intros Hst len. destruct (reachable_inv st Hst) as [(_ & Hidx & _) _].
  fold len in Hidx. split_and!; try lia.
  intros Hlen. split; [lia|]. apply lookup_lt_is_Some_2. lia.
Qed.

Lemma index_in_range_witness :
  let len :=
    Z.of_nat (length (contents sample_second (currentQuestions sample_second))) in
  0 ≤ currentQuestionIndex sample_second
  ∧ (len = 0 → currentQuestionIndex sample_second = 0)
  ∧ (0 < len →
     currentQuestionIndex sample_second < len
     ∧ is_Some (contents sample_second (currentQuestions sample_second)
                  !! Z.to_nat (currentQuestionIndex sample_second))).
Proof.
  apply index_in_range.
  apply (reachable_run [ClickOption 0; ClickNext; ClickOption 1]),
    sample_started_reachable.
Defined.

(** ** The recorded answers *)

Lemma sample_second_reachable : reachable sample_second.
Proof. apply reachable_run, sample_started_reachable. Qed.

(** X9. Every entry of [answeredQuestions] is the answer to a question of
    the current order: its key is a position of [currentQuestions], the
    [correct] it stores is that question's [a], and the [selected] it stores
    is the index of one of that question's options. *)
Theorem answers_belong_to_questions (st : State) (k : Z) (data : AnswerRecord) :
  reachable st →
  answeredQuestions st !! k = Some data →
  0 ≤ k < Z.of_nat (length (contents st (currentQuestions st)))
  ∧ ∃ question,
      contents st (currentQuestions st) !! Z.to_nat k = Some question
      ∧ correct data = a question
      ∧ 0 ≤ selected data < Z.of_nat (length (o question)).
Proof.
  intros Hst Hk. destruct (reachable_shown st Hst) as [_ Hok].
  destruct (Hok k data Hk) as (Hlo & question & Hq & Hrest).
  split; [|by exists question].
  apply lookup_lt_Some in Hq. lia.
Qed.

Lemma answers_belong_to_questions_witness :
  0 ≤ 1 < Z.of_nat (length (contents sample_second (currentQuestions sample_second)))
  ∧ ∃ question,
      contents sample_second (currentQuestions sample_second) !! Z.to_nat 1
        = Some question
      ∧ correct (mkAnswer 1 2) = a question
      ∧ 0 ≤ selected (mkAnswer 1 2) < Z.of_nat (length (o question)).
Proof.
  apply answers_belong_to_questions.
  - apply sample_second_reachable.
  - by vm_compute.
Defined.

Lemma answers_size_bound (st : State) :
  answers_ok st →
  (size (answeredQuestions st) ≤ length (contents st (currentQuestions st)))%nat.
Proof.
  intros Hok.
  set (n := length (contents st (currentQuestions st))).
  rewrite <- size_dom.
  transitivity (size (list_to_set (C := gset Z) (Z.of_nat <$> seq 0 n))).
  - apply subseteq_size. intros k [data Hk]%elem_of_dom.
    destruct (Hok k data Hk) as (Hlo & question & Hq & _).
    apply lookup_lt_Some in Hq.
    apply elem_of_list_to_set, list_elem_of_fmap.
    exists (Z.to_nat k). split; [lia|]. apply elem_of_seq. lia.
  - rewrite size_list_to_set.
    + by rewrite length_fmap, length_seq.
    + apply NoDup_fmap_2; [apply _|apply NoDup_seq].
Qed.

(** X10. The score is never negative and never more than the number of
    answered questions, which is never more than the number of
    questions. *)
Theorem score_bounds (st : State) :
  reachable st →
  0 ≤ score st ≤ Z.of_nat (size (answeredQuestions st))
  ∧ (size (answeredQuestions st)
     ≤ length (contents st (currentQuestions st)))%nat.
Proof.
  intros Hst. destruct (reachable_inv st Hst) as [(Hscore & _) _].
  destruct (reachable_shown st Hst) as [_ Hok].
  split; [|by apply answers_size_bound].
  rewrite Hscore. unfold count_correct.
  pose proof (map_subseteq_size _ _
    (map_filter_subseteq is_right (answeredQuestions st))). lia.
Qed.

Lemma score_bounds_witness :
  0 ≤ score sample_second ≤ Z.of_nat (size (answeredQuestions sample_second))
  ∧ (size (answeredQuestions sample_second)
     ≤ length (contents sample_second (currentQuestions sample_second)))%nat.
Proof. apply score_bounds, sample_second_reachable. Defined.

(** X11. A recorded answer stays as it is until the quiz is restarted: in
    a reachable state no event other than a click on the restart button
    removes or replaces an entry of [answeredQuestions], and none lowers the
    score. *)
Theorem answers_kept_until_restart (e : Event) (st : State) :
  reachable st →
  e ≠ ClickShuffle →
  answeredQuestions st ⊆ answeredQuestions (dispatch e st)
  ∧ score st ≤ score (dispatch e st).
Proof.
  intros Hst Hshuffle. pose proof (reachable_inv st Hst) as Hinv.
  destruct (classic_event e) as [[k ->]|[->|[Hopt Hne]]]; [|done|].
  - cbn. destruct (optionsContainer (page st) !! k) as [btn|] eqn:Hk; [|done].
    destruct (btn_disabled btn) eqn:Hen; [done|].
    destruct (btn_click btn) as [[i c]|]; [|done].
    pose proof (enabled_button_unanswered st k btn Hinv Hk Hen) as Hnone.
    destruct (handleOptionClick_eq k i c st) as (p & -> & _). cbn.
    split; [by apply insert_subseteq|]. destruct (i =? c); lia.
  - by destruct (navigation_vars e st Hopt Hne) as (i & p & al & ->).
Qed.

Lemma answers_kept_until_restart_witness :
  answeredQuestions sample_answered
    ⊆ answeredQuestions (dispatch (ClickOption 1) sample_answered)
  ∧ score sample_answered ≤ score (dispatch (ClickOption 1) sample_answered).
Proof.
  apply answers_kept_until_restart; [apply sample_answered_reachable|done].
Defined.

(** ** What the user sees *)

(** X12. The score line always shows the score and the bound of the jump
    input is always the number of questions: [updateScore] runs after every
    change of [score], and [startQuiz] sets [jumpInput.max] whenever the
    array is replaced. *)
Theorem score_line_shows_score (st : State) :
  reachable st →
  scoreText (page st) = "النتيجة: " +:+ Number_toString (score st)
  ∧ jumpInput_max (page st)
    = Z.of_nat (length (contents st (currentQuestions st))).
Proof. intros Hst. by destruct (reachable_shown st Hst) as [(? & ? & _) _]. Qed.

Lemma score_line_shows_score_witness :
  scoreText (page sample_second)
    = "النتيجة: " +:+ Number_toString (score sample_second)
  ∧ jumpInput_max (page sample_second)
    = Z.of_nat (length (contents sample_second (currentQuestions sample_second))).
Proof. apply score_line_shows_score, sample_second_reachable. Defined.

(** X13. The page always shows the question at the current index: its
    text, the progress line with the one-based number and the total, the
    previous button disabled exactly at the first question and the next
    button disabled exactly at the last one. *)
Theorem current_question_shown (st : State) (question : Question) :
  reachable st →
  contents st (currentQuestions st) !! Z.to_nat (currentQuestionIndex st)
    = Some question →
  let len := Z.of_nat (length (contents st (currentQuestions st))) in
  questionText (page st) = q question
  ∧ progressText (page st)
    = "سؤال " +:+ Number_toString (currentQuestionIndex st + 1) +:+ " من "
        +:+ Number_toString len
  ∧ (prevBtn_disabled (page st) = true ↔ currentQuestionIndex st = 0)
  ∧ (nextBtn_disabled (page st) = true ↔ currentQuestionIndex st = len - 1).
Proof.
  intros Hst Hq len. destruct (reachable_shown st Hst) as [(_ & _ & Hshown) _].
  destruct (Hshown question Hq) as (Htext & Hprogress & Hprev & Hnext & _).
  split_and!; try done.
  - rewrite Hprev. apply Z.eqb_eq.
  - rewrite Hnext. apply Z.eqb_eq.
Qed.

Lemma current_question_shown_witness :
  let len :=
    Z.of_nat (length (contents sample_second (currentQuestions sample_second))) in
  questionText (page sample_second) = q Q2
  ∧ progressText (page sample_second)
    = "سؤال " +:+ Number_toString (currentQuestionIndex sample_second + 1)
        +:+ " من " +:+ Number_toString len
  ∧ (prevBtn_disabled (page sample_second) = true
     ↔ currentQuestionIndex sample_second = 0)
  ∧ (nextBtn_disabled (page sample_second) = true
     ↔ currentQuestionIndex sample_second = len - 1).
Proof.
  apply current_question_shown; [apply sample_second_reachable|].
  by vm_compute.
Defined.

(** X14. The option buttons are the options of the current question: as
    many buttons as options, the [k]-th button carrying the text of option
    [k] and [k] as its [dataset.index], which [parseInt] reads back. *)
Theorem option_buttons_shown (st : State) (question : Question) :
  reachable st →
  contents st (currentQuestions st) !! Z.to_nat (currentQuestionIndex st)
    = Some question →
  length (optionsContainer (page st)) = length (o question)
  ∧ ∀ k btn, optionsContainer (page st) !! k = Some btn →
      o question !! k = Some (btn_textContent btn)
      ∧ btn_dataset_index btn = Number_toString (Z.of_nat k)
      ∧ parseInt (btn_dataset_index btn) = Some (Z.of_nat k).
Proof.
  intros Hst Hq. destruct (reachable_shown st Hst) as [(_ & _ & Hshown) _].
  destruct (Hshown question Hq) as (_ & _ & _ & _ & Hlen & Hbtns & _).
  split; [done|]. intros k btn Hk.
  destruct (Hbtns k btn Hk) as (Ho & Hdata & _).
  split_and!; try done. rewrite Hdata. apply parseInt_Number_toString.
Qed.

Lemma option_buttons_shown_witness :
  length (optionsContainer (page sample_second)) = length (o Q2)
  ∧ ∀ k btn, optionsContainer (page sample_second) !! k = Some btn →
      o Q2 !! k = Some (btn_textContent btn)
      ∧ btn_dataset_index btn = Number_toString (Z.of_nat k)
      ∧ parseInt (btn_dataset_index btn) = Some (Z.of_nat k).
Proof.
  apply option_buttons_shown; [apply sample_second_reachable|].
  by vm_compute.
Defined.

(** X15. An unanswered question can be answered with any of its options:
    in a reachable state whose current question has no recorded answer, a
    click on the button of option [k] runs [handleOptionClick] with [k] and
    the question's right index. *)
Theorem unanswered_option_clickable (st : State) (question : Question) (k : nat) :
  reachable st →
  contents st (currentQuestions st) !! Z.to_nat (currentQuestionIndex st)
    = Some question →
  answeredQuestions st !! currentQuestionIndex st = None →
  (k < length (o question))%nat →
  dispatch (ClickOption k) st
  = handleOptionClick k (Z.of_nat k) (a question) st.
Proof.
  intros Hst Hq Hnone Hk.
  destruct (reachable_shown st Hst) as [(_ & _ & Hshown) _].
  destruct (Hshown question Hq) as (_ & _ & _ & _ & Hlen & Hbtns & _).
  destruct (lookup_lt_is_Some_2 (optionsContainer (page st)) k) as [btn Hbtn];
    [lia|].
  destruct (Hbtns k btn Hbtn) as (_ & _ & Hfree).
  destruct (Hfree Hnone) as (Hen & Hclick & _).
  cbn. by rewrite Hbtn, Hen, Hclick.
Qed.

Lemma unanswered_option_clickable_witness :
  dispatch (ClickOption 1) sample_started
  = handleOptionClick 1 (Z.of_nat 1) (a Q1) sample_started.
Proof.
  apply unanswered_option_clickable;
    [apply sample_started_reachable|by vm_compute..|vm_compute; lia].
Defined.

(** The button of an option of an unanswered current question. *)
Lemma clickable_button (st : State) (question : Question) (k : nat) :
  reachable st →
  contents st (currentQuestions st) !! Z.to_nat (currentQuestionIndex st)
    = Some question →
  answeredQuestions st !! currentQuestionIndex st = None →
  (k < length (o question))%nat →
  ∃ btn,
    optionsContainer (page st) !! k = Some btn
    ∧ btn_disabled btn = false
    ∧ btn_click btn = Some (Z.of_nat k, a question)
    ∧ btn_classList btn = ["option-btn"]
    ∧ btn_dataset_index btn = Number_toString (Z.of_nat k).
Proof.
  intros Hst Hq Hnone Hk.
  destruct (reachable_shown st Hst) as [(_ & _ & Hshown) _].
  destruct (Hshown question Hq) as (_ & _ & _ & _ & Hlen & Hbtns & _).
  destruct (lookup_lt_is_Some_2 (optionsContainer (page st)) k) as [btn Hbtn];
    [lia|].
  destruct (Hbtns k btn Hbtn) as (_ & Hdata & Hfree).
  destruct (Hfree Hnone) as (Hen & Hclick & Hclass).
  by exists btn.
Qed.

(** X16. Answering: a click on option [k] of an unanswered current question
    stores the pair of [k] and the question's right index under the current
    index, adds one to the score exactly when [k] is the right index, keeps
    the index, shows the matching feedback and the new score, and disables
    every option button. *)
Theorem click_records_answer (st : State) (question : Question) (k : nat) :
  reachable st →
  contents st (currentQuestions st) !! Z.to_nat (currentQuestionIndex st)
    = Some question →
  answeredQuestions st !! currentQuestionIndex st = None →
  (k < length (o question))%nat →
  let st' := dispatch (ClickOption k) st in
  let right := Z.of_nat k =? a question in
  answeredQuestions st'
    = <[currentQuestionIndex st := mkAnswer (Z.of_nat k) (a question)]>
        (answeredQuestions st)
  ∧ score st' = score st + (if right then 1 else 0)
  ∧ currentQuestionIndex st' = currentQuestionIndex st
  ∧ feedbackText (page st') = (if right then "إجابة صحيحة!" else "إجابة خاطئة")
  ∧ scoreText (page st') = "النتيجة: " +:+ Number_toString (score st')
  ∧ Forall (λ btn, btn_disabled btn = true) (optionsContainer (page st')).
Proof.
  intros Hst Hq Hnone Hk st' right.
  destruct (clickable_button st question k Hst Hq Hnone Hk)
    as (btn & Hbtn & Hen & Hclick & _).
  assert (Hst' : st' = handleOptionClick k (Z.of_nat k) (a question) st).
  { subst st'. cbn. by rewrite Hbtn, Hen, Hclick. }
  assert (Hreach : reachable st') by (by constructor).
  destruct (reachable_shown st' Hreach) as [(Hscore & _ & Hshown) _].
  destruct (handleOptionClick_eq k (Z.of_nat k) (a question) st)
    as (p & Heq & Hdis & _).
  rewrite <- Hst' in Heq.
  assert (Hq' : contents st' (currentQuestions st')
                  !! Z.to_nat (currentQuestionIndex st') = Some question)
    by (by rewrite Heq).
  destruct (Hshown question Hq') as (_ & _ & _ & _ & _ & _ & Hfeedback).
  split_and!; try (by rewrite Heq).
  - rewrite Heq in Hfeedback. cbn in Hfeedback.
    rewrite lookup_insert_eq in Hfeedback. cbn in Hfeedback.
    destruct Hfeedback as [Hfb _]. rewrite Heq. cbn. by rewrite Hfb.
  - done.
Qed.

Lemma click_records_answer_witness :
  let st' := dispatch (ClickOption 1) sample_started in
  let right := Z.of_nat 1 =? a Q1 in
  answeredQuestions st'
    = <[currentQuestionIndex sample_started := mkAnswer (Z.of_nat 1) (a Q1)]>
        (answeredQuestions sample_started)
  ∧ score st' = score sample_started + (if right then 1 else 0)
  ∧ currentQuestionIndex st' = currentQuestionIndex sample_started
  ∧ feedbackText (page st') = (if right then "إجابة صحيحة!" else "إجابة خاطئة")
  ∧ scoreText (page st') = "النتيجة: " +:+ Number_toString (score st')
  ∧ Forall (λ btn, btn_disabled btn = true) (optionsContainer (page st')).
Proof.
  apply click_records_answer;
    [apply sample_started_reachable|by vm_compute..|vm_compute; lia].
Defined.

(** X17. The highlights after an answer: the clicked button gets the class
    [correct] when it is the right option and [incorrect] otherwise, the
    button of the right option gets [show-correct], and no other button
    gets a class. *)
Theorem click_marks_buttons (st : State) (question : Question) (k j : nat)
    (btn' : Button) :
  reachable st →
  contents st (currentQuestions st) !! Z.to_nat (currentQuestionIndex st)
    = Some question →
  answeredQuestions st !! currentQuestionIndex st = None →
  (k < length (o question))%nat →
  optionsContainer (page (dispatch (ClickOption k) st)) !! j = Some btn' →
  btn_classList btn'
  = ("option-btn"
     :: (if decide (j = k)
         then [if Z.of_nat k =? a question then "correct" else "incorrect"]
         else [])
     ++ (if Z.of_nat j =? a question then ["show-correct"] else []))%list.
Proof.
  intros Hst Hq Hnone Hk Hj.
  destruct (clickable_button st question k Hst Hq Hnone Hk)
    as (btn & Hbtn & Hen & Hclick & Hclass & Hdata).
  cbn in Hj. rewrite Hbtn, Hen, Hclick in Hj.
  assert (Hlen : (j < length (o question))%nat).
  { destruct (handleOptionClick_eq k (Z.of_nat k) (a question) st)
      as (p & Heq & _ & Hsame).
    rewrite Heq in Hj. cbn in Hj.
    destruct (Hsame j btn' Hj) as (b0 & Hb0 & _).
    destruct (reachable_shown st Hst) as [(_ & _ & Hshown) _].
    destruct (Hshown question Hq) as (_ & _ & _ & _ & Hlen & _).
    rewrite <- Hlen. by eapply lookup_lt_Some. }
  destruct (clickable_button st question j Hst Hq Hnone Hlen)
    as (b & Hb & _ & _ & Hbclass & Hbdata).
  unfold handleOptionClick in Hj.
  destruct (Z.of_nat k =? a question) eqn:Hright; cbn in Hj;
    rewrite list_lookup_fmap, list_lookup_alter in Hj;
    (destruct (decide (k = j)) as [->|Hne];
     [rewrite Hb in Hj; rewrite decide_True by done
     |rewrite Hb in Hj; rewrite decide_False by done]);
    cbn in Hj; rewrite Hbdata, dataset_index_read in Hj;
    destruct (Z.of_nat j =? a question) eqn:Hj';
    injection Hj as <-; cbn; rewrite Hbclass; try reflexivity;
    congruence.
Qed.

Lemma click_marks_buttons_witness :
  btn_classList (mkButton "a" ["option-btn"; "show-correct"] "0" true (Some (0, 0)))
  = ("option-btn"
     :: (if decide (0%nat = 1%nat)
         then [if Z.of_nat 1 =? a Q1 then "correct" else "incorrect"]
         else [])
     ++ (if Z.of_nat 0 =? a Q1 then ["show-correct"] else []))%list.
Proof.
  apply (click_marks_buttons sample_started Q1 1 0);
    [apply sample_started_reachable|by vm_compute..|vm_compute; lia|by vm_compute].
Defined.

(** X18. The feedback of an answered question is the same whether it was
    just answered or is visited again: whenever the current question has a
    recorded answer, the feedback line and its class tell whether the
    recorded choice was the right one, and all option buttons are
    disabled. *)
Theorem answered_question_feedback (st : State) (data : AnswerRecord) :
  reachable st →
  answeredQuestions st !! currentQuestionIndex st = Some data →
  let right := selected data =? correct data in
  feedbackText (page st) = (if right then "إجابة صحيحة!" else "إجابة خاطئة")
  ∧ feedbackText_classList (page st)
    = [if right then "feedback-correct" else "feedback-incorrect"]
  ∧ Forall (λ btn, btn_disabled btn = true) (optionsContainer (page st)).
Proof.
  intros Hst Hdata right.
  destruct (reachable_shown st Hst) as [(_ & _ & Hshown) Hok].
  destruct (reachable_inv st Hst) as [_ [Hdis _]].
  destruct (Hok _ _ Hdata) as (_ & question & Hq & _).
  destruct (Hshown question Hq) as (_ & _ & _ & _ & _ & _ & Hfeedback).
  rewrite Hdata in Hfeedback. destruct Hfeedback as [Hfb Hfc].
  split_and!; try done. apply Hdis. by eexists.
Qed.

Lemma answered_question_feedback_witness :
  let right := selected (mkAnswer 0 0) =? correct (mkAnswer 0 0) in
  feedbackText (page sample_session)
    = (if right then "إجابة صحيحة!" else "إجابة خاطئة")
  ∧ feedbackText_classList (page sample_session)
    = [if right then "feedback-correct" else "feedback-incorrect"]
  ∧ Forall (λ btn, btn_disabled btn = true)
      (optionsContainer (page sample_session)).
Proof.
  apply answered_question_feedback;
    [apply sample_session_reachable|by vm_compute].
Defined.

(** ** Jumping and stepping *)



(** X21. One step forward and one step back show the question that was
    left, freshly loaded: in a reachable state that is not at the last
    question, a click on next followed by a click on previous gives the
    state [loadQuestion] gives at the old index; score, answers and order
    are as before. *)
Theorem next_then_prev (st : State) :
  reachable st →
  currentQuestionIndex st
    < Z.of_nat (length (contents st (currentQuestions st))) - 1 →
  run [ClickNext; ClickPrev] st = loadQuestion (currentQuestionIndex st) st.
Proof.
  intros Hst Hlt.
  destruct (reachable_inv st Hst) as [(_ & Hidx & _) _].
  destruct (reachable_shown st Hst) as [(_ & _ & Hshown) _].
  set (len := Z.of_nat (length (contents st (currentQuestions st)))) in *.
  destruct (lookup_lt_is_Some_2 (contents st (currentQuestions st))
              (Z.to_nat (currentQuestionIndex st))) as [question Hq]; [lia|].
  destruct (lookup_lt_is_Some_2 (contents st (currentQuestions st))
              (Z.to_nat (currentQuestionIndex st + 1))) as [question' Hq'];
    [lia|].
  destruct (Hshown question Hq) as (_ & _ & _ & Hnext & _).
  assert (Hnb : nextBtn_disabled (page st) = false).
  { rewrite Hnext. apply Z.eqb_neq. lia. }
  assert (Hstep : dispatch ClickNext st
            = loadQuestion (currentQuestionIndex st + 1)
                (set_currentQuestionIndex (currentQuestionIndex st + 1) st)).
  { cbn. rewrite Hnb. unfold nextQuestion. fold len.
    by destruct (Z.ltb_spec (currentQuestionIndex st) (len - 1)); [|lia]. }
  change (run [ClickNext; ClickPrev] st)
    with (dispatch ClickPrev (dispatch ClickNext st)).
  rewrite Hstep.
  rewrite (loadQuestion_valid (currentQuestionIndex st + 1) _ question');
    [|lia|done].
  cbn. destruct (Z.eqb_spec (currentQuestionIndex st + 1) 0); [lia|].
  unfold prevQuestion. cbn.
  destruct (Z.ltb_spec 0 (currentQuestionIndex st + 1)); [|lia].
  replace (currentQuestionIndex st + 1 - 1) with (currentQuestionIndex st)
    by lia.
  rewrite (loadQuestion_valid (currentQuestionIndex st) _ question);
    [|lia|done].
  rewrite (loadQuestion_valid (currentQuestionIndex st) st question);
    [|lia|done].
  done.
Qed.

Lemma next_then_prev_witness :
  run [ClickNext; ClickPrev] sample_answered
  = loadQuestion (currentQuestionIndex sample_answered) sample_answered.
Proof.
  apply next_then_prev; [apply sample_answered_reachable|by vm_compute].
Defined.

(** ** Edge cases *)

(** X22. A quiz without questions is inert: once the page has loaded with
    an empty bank, clicks on options, next and previous change nothing, and
    every jump request is refused with the alert for the range from [1] to
    [0]. *)
Theorem empty_quiz_inert (st : State) (k : nat) :
  reachable st →
  contents st (currentQuestions st) = [] →
  dispatch (ClickOption k) st = st
  ∧ dispatch ClickNext st = st
  ∧ dispatch ClickPrev st = st
  ∧ dispatch ClickJump st = alert (jump_alert_text 0) st.
Proof.
  intros Hst Hnil.
  destruct (reachable_inv st Hst) as [(_ & Hidx & _) [_ Hlisten]].
  rewrite Hnil in Hidx. cbn in Hidx.
  assert (Hzero : currentQuestionIndex st = 0) by lia.
  split_and!; cbn.
  - destruct (optionsContainer (page st) !! k) as [btn|] eqn:Hk; [|done].
    destruct (btn_disabled btn); [done|].
    destruct (btn_click btn) as [[i c]|] eqn:Hclick; [|done].
    destruct (Hlisten k btn i c Hk Hclick) as (question & Hq & _).
    by rewrite Hnil in Hq.
  - unfold nextQuestion. rewrite Hnil, Hzero. by destruct (nextBtn_disabled _).
  - unfold prevQuestion. rewrite Hzero. by destruct (prevBtn_disabled _).
  - rewrite (jumpToQuestion_refused st); rewrite Hnil; [done|].
    cbn. intros n _. lia.
Qed.

Lemma empty_quiz_inert_witness :
  let st := run [TypeJumpInput "1"; ClickNext] (startQuiz sample_empty) in
  dispatch (ClickOption 0) st = st
  ∧ dispatch ClickNext st = st
  ∧ dispatch ClickPrev st = st
  ∧ dispatch ClickJump st = alert (jump_alert_text 0) st.
Proof.
  apply empty_quiz_inert.
  - apply reachable_run, reachable_load, sample_declared_ok.
  - by vm_compute.
Defined.
